(** * Turkish market risk study: rolling volatility and correlation

    A shallow embedding of [BIST50_Volatility_Analysis.py].

    The script is a pipeline of pandas / NumPy calls.  Tables are modelled
    as labelled columns of float64 cells.  Floating point is idealised:
    a finite cell holds a real number and arithmetic on finite cells is
    exact (no rounding, no overflow, a single zero); the special values
    [inf], [-inf] and [NaN] and the way the library calls treat them are
    kept, since pandas uses [NaN] as its "missing" marker. *)

From Stdlib Require Import String.
From Stdlib Require Import Reals Lra Lia ZArith Bool Arith List.
Import ListNotations.

Open Scope R_scope.

(** ** Python values *)

(** An exception instance: its class name and its message. *)
Inductive exn : Type := Exn (class : string) (message : string).

Definition ValueError (message : string) : exn := Exn "ValueError" message.

Inductive result (A : Type) : Type :=
| Ok (a : A)
| Err (e : exn).
Arguments Ok {A} a.
Arguments Err {A} e.

(** ** float64 cells *)

Inductive float64 : Type :=
| Fin (x : R)
| PInf
| NInf
| NaN.

Definition isfinite (v : float64) : bool :=
  match v with Fin _ => true | _ => false end.

Definition isnan (v : float64) : bool :=
  match v with NaN => true | _ => false end.

(** Sign of a real, as a [comparison] against zero. *)
Definition sign_of (x : R) : comparison :=
  if Rlt_dec 0 x then Gt else if Rlt_dec x 0 then Lt else Eq.

Definition cmp_mul (a b : comparison) : comparison :=
  match a, b with
  | Eq, _ | _, Eq => Eq
  | Gt, Gt | Lt, Lt => Gt
  | _, _ => Lt
  end.

(** The infinity of a given sign; [NaN] for the sign of zero. *)
Definition inf_of (s : comparison) : float64 :=
  match s with Gt => PInf | Lt => NInf | Eq => NaN end.

(** [a / b] *)
Definition fdiv (a b : float64) : float64 :=
  match a, b with
  | NaN, _ | _, NaN => NaN
  | Fin x, Fin y => if Req_dec_T y 0 then inf_of (sign_of x) else Fin (x / y)
  | Fin _, _ => Fin 0
  | PInf, Fin y => if Rlt_dec y 0 then NInf else PInf
  | NInf, Fin y => if Rlt_dec y 0 then PInf else NInf
  | _, _ => NaN
  end.

(** [a * b] *)
Definition fmul (a b : float64) : float64 :=
  match a, b with
  | NaN, _ | _, NaN => NaN
  | Fin x, Fin y => Fin (x * y)
  | Fin x, PInf | PInf, Fin x => inf_of (sign_of x)
  | Fin x, NInf | NInf, Fin x => inf_of (cmp_mul Lt (sign_of x))
  | PInf, PInf | NInf, NInf => PInf
  | PInf, NInf | NInf, PInf => NInf
  end.

(** [np.log] on one cell. *)
Definition flog (a : float64) : float64 :=
  match a with
  | Fin x => if Rlt_dec 0 x then Fin (ln x)
             else if Req_dec_T x 0 then NInf else NaN
  | PInf => PInf
  | NInf | NaN => NaN
  end.

(** [np.sqrt] on one cell. *)
Definition np_sqrt (a : float64) : float64 :=
  match a with
  | Fin x => if Rlt_dec x 0 then NaN else Fin (sqrt x)
  | PInf => PInf
  | NInf | NaN => NaN
  end.

(** ** Tables *)

Definition Series := list float64.

(** A [DataFrame]: the row labels (dates) and the labelled columns, each
    holding one cell per row. *)
Record DataFrame : Type := mkDataFrame {
  index : list string;
  columns : list (string * Series)
}.

Definition df_map (f : Series -> Series) (df : DataFrame) : DataFrame :=
  {| index := index df;
     columns := map (fun nc => (fst nc, f (snd nc))) (columns df) |}.

(** Cell-wise binary operation of two frames that carry the same labels,
    which pandas then pairs by position. *)
Definition df_zip (f : float64 -> float64 -> float64) (a b : DataFrame) : DataFrame :=
  {| index := index a;
     columns := map (fun ab => (fst (fst ab),
                                map (fun xy => f (fst xy) (snd xy))
                                    (combine (snd (fst ab)) (snd (snd ab)))))
                    (combine (columns a) (columns b)) |}.

(** [Series.shift(periods)] for [periods >= 0]: rows move down, the top is
    filled with [NaN], the length is kept. *)
Definition shift (periods : nat) (c : Series) : Series :=
  firstn (length c) (repeat NaN periods ++ c).

Definition df_shift (df : DataFrame) (periods : nat) : DataFrame :=
  df_map (shift periods) df.

Definition df_div (a b : DataFrame) : DataFrame := df_zip fdiv a b.

Definition np_log (df : DataFrame) : DataFrame := df_map (map flog) df.

Definition df_mul_scalar (df : DataFrame) (k : float64) : DataFrame :=
  df_map (map (fun v => fmul v k)) df.

(** ** Rolling windows *)

(** The object returned by [DataFrame.rolling]. *)
Record Rolling : Type := mkRolling {
  obj : DataFrame;
  window : nat;
  min_periods : nat
}.

(** [df.rolling(window=window)]: the window must be an integer that is not
    negative; [min_periods] defaults to the window size. *)
Definition rolling (df : DataFrame) (window : Z) : result Rolling :=
  if (window <? 0)%Z
  then Err (ValueError "window must be an integer 0 or greater")
  else Ok {| obj := df; window := Z.to_nat window; min_periods := Z.to_nat window |}.

(** Rows [start, stop) of a column. *)
Definition slice (start stop : nat) (c : Series) : Series :=
  firstn (stop - start) (skipn start c).

(** The fixed window of row [t]: it ends at [t] and reaches back [w] rows,
    clipped at the top of the table. *)
Definition window_at (w : nat) (c : Series) (t : nat) : Series :=
  slice (S t - w) (S t) c.

(** Before aggregation the library turns infinities into [NaN]. *)
Definition prep_values (c : Series) : Series :=
  map (fun v => if isfinite v then v else NaN) c.

(** Running aggregate of a window: number of observations, their mean and
    the sum of squared differences from the mean. *)
Record var_state : Type := mkVar {
  nobs : nat;
  mean_x : R;
  ssqdm_x : R
}.

Definition var_init : var_state := {| nobs := 0; mean_x := 0; ssqdm_x := 0 |}.

(** One more observation enters the aggregate; a missing cell is skipped. *)
Definition add_var (st : var_state) (v : float64) : var_state :=
  match v with
  | Fin val =>
      let n := S (nobs st) in
      let delta := val - mean_x st in
      let mean' := mean_x st + delta / INR n in
      {| nobs := n; mean_x := mean';
         ssqdm_x := ssqdm_x st + (val - mean_x st) * (val - mean') |}
  | _ => st
  end.

(** Variance of an aggregate with [ddof] delta degrees of freedom; [NaN]
    when the window holds fewer than [minp] observations or no more than
    [ddof]. *)
Definition calc_var (minp ddof : nat) (st : var_state) : float64 :=
  if (minp <=? nobs st)%nat && (ddof <? nobs st)%nat
  then if (nobs st =? 1)%nat then Fin 0
       else Fin (ssqdm_x st / (INR (nobs st) - INR ddof))
  else NaN.

(** Square root that maps a (rounding-induced) negative variance to 0. *)
Definition zsqrt (v : float64) : float64 :=
  match v with
  | Fin x => if Rlt_dec x 0 then Fin 0 else Fin (sqrt x)
  | other => other
  end.

(** An observation leaves the aggregate; a missing cell is skipped.  When
    no observation is left the aggregate is reset. *)
Definition remove_var (st : var_state) (v : float64) : var_state :=
  match v with
  | Fin val =>
      let n := Nat.pred (nobs st) in
      if (n =? 0)%nat then {| nobs := n; mean_x := 0; ssqdm_x := 0 |}
      else
        let delta := val - mean_x st in
        let mean' := mean_x st - delta / INR n in
        {| nobs := n; mean_x := mean';
           ssqdm_x := ssqdm_x st - (val - mean_x st) * (val - mean') |}
  | _ => st
  end.

(** The aggregate of row [t], from the aggregate [prev] of the row above.
    The first row, and a row whose window starts at or after the end of
    the window above, is aggregated afresh; any other row removes the
    cells that left the window and adds the cells that entered it. *)
Definition slide_var (w : nat) (values : Series) (t : nat) (prev : var_state)
  : var_state :=
  let s := (S t - w)%nat in
  if (t =? 0)%nat || (t <=? s)%nat
  then fold_left add_var (window_at w values t) var_init
  else fold_left add_var (slice t (S t) values)
         (fold_left remove_var (slice (t - w) s values) prev).

(** The rows from [t] on, [rows] of them, one aggregate carried along. *)
Fixpoint roll_var_rows (w minp ddof : nat) (values : Series) (t rows : nat)
    (prev : var_state) : Series :=
  match rows with
  | O => []
  | S rows' =>
      let st := slide_var w values t prev in
      calc_var minp ddof st :: roll_var_rows w minp ddof values (S t) rows' st
  end.

Definition roll_var (w minp ddof : nat) (c : Series) : Series :=
  roll_var_rows w (Nat.max minp 1) ddof (prep_values c) 0 (length c) var_init.

(** [Rolling.std()] on one column, with the default [ddof = 1]. *)
Definition roll_std (w minp : nat) (c : Series) : Series :=
  map zsqrt (roll_var w minp 1 c).

Definition rolling_std (r : Rolling) : DataFrame :=
  df_map (roll_std (window r) (min_periods r)) (obj r).

(** ** The risk calculation *)

(** [calculate_volatility(data, window)]: the pair (rolling volatility,
    log returns), or the exception raised by [rolling]. *)
Definition calculate_volatility (data : DataFrame) (window : Z)
  : result (DataFrame * DataFrame) :=
  let log_returns := np_log (df_div data (df_shift data 1)) in
  match rolling log_returns window with
  | Err e => Err e
  | Ok r =>
      let rolling_vol := df_mul_scalar (rolling_std r) (np_sqrt (Fin 252)) in
      Ok (rolling_vol, log_returns)
  end.

(** ** Correlation *)

(** Running aggregate of [DataFrame.corr] for one pair of columns. *)
Record corr_state : Type := mkCorr {
  c_nobs : nat;
  c_meanx : R;
  c_meany : R;
  c_ssqdm_x : R;
  c_ssqdm_y : R;
  c_covxy : R
}.

Definition corr_init : corr_state :=
  {| c_nobs := 0; c_meanx := 0; c_meany := 0;
     c_ssqdm_x := 0; c_ssqdm_y := 0; c_covxy := 0 |}.

(** One row enters the aggregate when both of its cells are finite. *)
Definition corr_add (st : corr_state) (row : float64 * float64) : corr_state :=
  match row with
  | (Fin vx, Fin vy) =>
      let n := S (c_nobs st) in
      let dx := vx - c_meanx st in
      let dy := vy - c_meany st in
      let meanx := c_meanx st + 1 / INR n * dx in
      let meany := c_meany st + 1 / INR n * dy in
      {| c_nobs := n; c_meanx := meanx; c_meany := meany;
         c_ssqdm_x := c_ssqdm_x st + (vx - meanx) * dx;
         c_ssqdm_y := c_ssqdm_y st + (vy - meany) * dy;
         c_covxy := c_covxy st + (vx - meanx) * dy |}
  | _ => st
  end.

Definition clip_unit (val : R) : R :=
  if Rlt_dec 1 val then 1 else if Rlt_dec val (-1) then -1 else val.

(** The correlation of two columns over the rows where both are finite;
    [NaN] with fewer than [minp] such rows or a zero divisor. *)
Definition nancorr_pair (minp : nat) (x y : Series) : float64 :=
  let st := fold_left corr_add (combine x y) corr_init in
  if (c_nobs st <? minp)%nat then NaN
  else
    let divisor := sqrt (c_ssqdm_x st * c_ssqdm_y st) in
    if Req_dec_T divisor 0 then NaN
    else Fin (clip_unit (c_covxy st / divisor)).

(** The library fills the lower triangle [yi <= xi] and mirrors it. *)
Definition corr_entry (cols : list Series) (i j : nat) : float64 :=
  let xi := Nat.max i j in
  let yi := Nat.min i j in
  nancorr_pair 1 (nth xi cols []) (nth yi cols []).

(** [df.corr()]: Pearson method, [min_periods = 1].  Rows and columns of
    the result are both labelled by the column names of [df]. *)
Definition corr (df : DataFrame) : DataFrame :=
  let names := map fst (columns df) in
  let cols := map snd (columns df) in
  let K := length cols in
  {| index := names;
     columns := map (fun j => (nth j names EmptyString,
                               map (fun i => corr_entry cols i j) (seq 0 K)))
                    (seq 0 K) |}.

(** ** Calls that leave the program *)

(** A piece of formatted text: a literal, or the [repr] of a list. *)
Inductive segment : Type :=
| Lit (s : string)
| Repr (l : list string).

Inductive call : Type :=
| print (text : list segment)
| yf_download (tickers : list string) (start stop : string)
| plt_figure (figsize : Z * Z)
| sns_heatmap (data : DataFrame) (annot : bool) (cmap : string)
              (vmin vmax : Z) (fmt : string) (linewidths : R)
| plt_title (label : string) (fontsize : Z)
| plt_show.

(** What a call hands back: nothing, the downloaded price fields (one
    table per field such as Close or Volume), or an exception. *)
Inductive reply : Type :=
| Returned_None
| Returned_fields (fields : list (string * DataFrame))
| Raised (e : exn).

(** A program that talks to the outside world. *)
Inductive io (A : Type) : Type :=
| Ret (a : A)
| Raise (e : exn)
| Do (c : call) (k : reply -> io A).
Arguments Ret {A} a.
Arguments Raise {A} e.
Arguments Do {A} c k.

(** A call statement: an exception raised by the callee is not caught. *)
Definition invoke {A : Type} (c : call) (k : reply -> io A) : io A :=
  Do c (fun r => match r with Raised e => Raise e | _ => k r end).

(** The outside world answers each call knowing the calls made so far. *)
Definition world := list call -> call -> reply.

(** Runs a program; returns the calls it made, in order, and its outcome. *)
Fixpoint run {A : Type} (env : world) (trace : list call) (p : io A)
  : list call * result A :=
  match p with
  | Ret a => (trace, Ok a)
  | Raise e => (trace, Err e)
  | Do c k => run env (trace ++ [c]) (k (env trace c))
  end.

(** [fields[key]] *)
Fixpoint getitem (fields : list (string * DataFrame)) (key : string)
  : option DataFrame :=
  match fields with
  | [] => None
  | (name, df) :: rest => if String.eqb name key then Some df else getitem rest key
  end.

(** [get_data(tickers, start, end)] *)
Definition get_data (tickers : list string) (start stop : string) : io DataFrame :=
  invoke (print [Lit "Fetching data for "; Repr tickers; Lit "..."]) (fun _ =>
  invoke (yf_download tickers start stop) (fun downloaded =>
  match downloaded with
  | Returned_fields fields =>
      match getitem fields "Close" with
      | Some data => Ret data
      | None => Raise (Exn "KeyError" "Close")
      end
  | _ => Raise (Exn "TypeError" "'NoneType' object is not subscriptable")
  end)).

(** [plot_correlation(returns)] *)
Definition plot_correlation (returns : DataFrame) : io DataFrame :=
  invoke (plt_figure (10, 8)%Z) (fun _ =>
  let corr_matrix := corr returns in
  invoke (sns_heatmap corr_matrix true "coolwarm" (-1) 1 ".2f" (5 / 10)) (fun _ =>
  invoke (plt_title "Correlation Matrix (Diversification Analysis)" 14) (fun _ =>
  invoke plt_show (fun _ =>
  Ret corr_matrix)))).

(** ** Tables as objects

    Python passes tables by reference.  Here every table lives in a store
    of objects and each library call that builds a table allocates a new
    object; this is the same computation as [calculate_volatility] above,
    with the store made explicit. *)

Module Obj.

Inductive object : Type :=
| ODataFrame (df : DataFrame)
| ORolling (target : nat) (window min_periods : nat).

Definition heap := list object.

Definition M (A : Type) : Type := heap -> result A * heap.

Definition ret {A : Type} (a : A) : M A := fun h => (Ok a, h).

Definition raise {A : Type} (e : exn) : M A := fun h => (Err e, h).

Definition bind {A B : Type} (m : M A) (f : A -> M B) : M B :=
  fun h => match m h with
           | (Ok a, h') => f a h'
           | (Err e, h') => (Err e, h')
           end.

Notation "x <- m ;; k" := (bind m (fun x => k))
  (at level 61, m at next level, right associativity).

(** A new object; its address is the next free one. *)
Definition alloc (o : object) : M nat :=
  fun h => (Ok (List.length h), h ++ [o]).

Definition attribute_error : exn :=
  Exn "AttributeError" "object has no such attribute".

Definition load_frame (r : nat) : M DataFrame :=
  fun h => match nth_error h r with
           | Some (ODataFrame df) => (Ok df, h)
           | _ => (Err attribute_error, h)
           end.

Definition load_rolling (r : nat) : M (nat * nat * nat) :=
  fun h => match nth_error h r with
           | Some (ORolling target w minp) => (Ok (target, w, minp), h)
           | _ => (Err attribute_error, h)
           end.

Definition shift (data : nat) (periods : nat) : M nat :=
  df <- load_frame data ;;
  alloc (ODataFrame (df_shift df periods)).

Definition div (a b : nat) : M nat :=
  x <- load_frame a ;;
  y <- load_frame b ;;
  alloc (ODataFrame (df_div x y)).

Definition log (a : nat) : M nat :=
  x <- load_frame a ;;
  alloc (ODataFrame (np_log x)).

(** The rolling object keeps a reference to its table, not a copy. *)
Definition rolling (a : nat) (window : Z) : M nat :=
  x <- load_frame a ;;
  match rolling x window with
  | Err e => raise e
  | Ok (mkRolling _ w minp) => alloc (ORolling a w minp)
  end.

Definition std (r : nat) : M nat :=
  twm <- load_rolling r ;;
  let '(target, w, minp) := twm in
  x <- load_frame target ;;
  alloc (ODataFrame (rolling_std {| obj := x; window := w; min_periods := minp |})).

Definition mul (a : nat) (k : float64) : M nat :=
  x <- load_frame a ;;
  alloc (ODataFrame (df_mul_scalar x k)).

(** [calculate_volatility(data, window)] on references. *)
Definition calculate_volatility (data : nat) (window : Z) : M (nat * nat) :=
  shifted <- shift data 1 ;;
  ratio <- div data shifted ;;
  log_returns <- log ratio ;;
  roll <- rolling log_returns window ;;
  sd <- std roll ;;
  rolling_vol <- mul sd (np_sqrt (Fin 252)) ;;
  ret (rolling_vol, log_returns).

(** What a caller can see of a run: the two tables behind the returned
    references, or the exception. *)
Definition observe (out : result (nat * nat) * heap)
  : result (option DataFrame * option DataFrame) :=
  let frame_at (h : heap) (r : nat) :=
    match nth_error h r with
    | Some (ODataFrame df) => Some df
    | _ => None
    end in
  match out with
  | (Ok (vol, lr), h) => Ok (frame_at h vol, frame_at h lr)
  | (Err e, _) => Err e
  end.

End Obj.

(** ** Views of the result, column by column *)

(** The column of the log-return table computed from the price column [p]. *)
Definition log_return_column (p : Series) : Series :=
  map flog (map (fun xy => fdiv (fst xy) (snd xy)) (combine p (shift 1 p))).

(** The column of the volatility table computed from the log-return
    column [r] with window [w]. *)
Definition volatility_column (w : nat) (r : Series) : Series :=
  map (fun v => fmul v (np_sqrt (Fin 252))) (roll_std w w r).

(** The cell of row [t] in column number [s]. *)
Definition cell (df : DataFrame) (t s : nat) : option float64 :=
  match nth_error (columns df) s with
  | Some (_, c) => nth_error c t
  | None => None
  end.

(** ** Reference notions used in the statements *)

Definition Rsum (xs : list R) : R := fold_right Rplus 0 xs.

Definition mean (xs : list R) : R := Rsum xs / INR (length xs).

(** Sum of squared deviations from the mean. *)
Definition sum_sq_dev (xs : list R) : R :=
  Rsum (map (fun x => (x - mean xs) * (x - mean xs)) xs).

(** Sample standard deviation (denominator [n - 1]). *)
Definition sample_std (xs : list R) : R :=
  sqrt (sum_sq_dev xs / (INR (length xs) - 1)).

(** The finite cells of a column, in order. *)
Fixpoint finite_values (c : Series) : list R :=
  match c with
  | [] => []
  | Fin x :: rest => x :: finite_values rest
  | _ :: rest => finite_values rest
  end.

(** The [w] cells of a column that end at row [t], when there are as many. *)
Definition trailing (w : nat) (c : Series) (t : nat) : option Series :=
  if (w <=? S t)%nat then Some (firstn w (skipn (S t - w) c)) else None.

(** A price cell is a positive number or missing. *)
Definition price_cell (v : float64) : Prop :=
  match v with
  | Fin x => 0 < x
  | NaN => True
  | _ => False
  end.

Definition price_table (df : DataFrame) : Prop :=
  forall name c, In (name, c) (columns df) -> Forall price_cell c.

(** A positive number in every cell. *)
Definition present_price (v : float64) : Prop :=
  match v with
  | Fin x => 0 < x
  | _ => False
  end.

Definition no_missing (df : DataFrame) : Prop :=
  forall name c, In (name, c) (columns df) -> Forall present_price c.

(** Number of rows of a column that are not missing. *)
Definition count_valid (c : Series) : nat :=
  length (filter (fun v => negb (isnan v)) c).
Definition all_finite (c : Series) : bool := forallb isfinite c.

(** The volatility the specification gives to row [t] of a log-return
    column: the sample standard deviation of the trailing [w] returns,
    annualised, when all of them are defined and [w >= 2]. *)
Definition rolling_volatility_cell (w : nat) (r : Series) (t : nat) : float64 :=
  match trailing w r t with
  | Some win =>
      if all_finite win && (2 <=? w)%nat
      then Fin (sample_std (finite_values win) * sqrt 252)
      else NaN
  | None => NaN
  end.

(** The log returns of a run of present prices, from the second on. *)
Fixpoint log_ratios_from (a : R) (q : list R) : list R :=
  match q with
  | [] => []
  | b :: rest => ln (b / a) :: log_ratios_from b rest
  end.

Definition log_ratios (xs : list R) : list R :=
  match xs with
  | [] => []
  | a :: q => log_ratios_from a q
  end.

(** [a + b] *)
Definition fadd (a b : float64) : float64 :=
  match a, b with
  | NaN, _ | _, NaN => NaN
  | Fin x, Fin y => Fin (x + y)
  | PInf, NInf | NInf, PInf => NaN
  | PInf, _ | _, PInf => PInf
  | NInf, _ | _, NInf => NInf
  end.

(** [np.exp] on one cell. *)
Definition fexp (a : float64) : float64 :=
  match a with
  | Fin x => Fin (exp x)
  | PInf => PInf
  | NInf => Fin 0
  | NaN => NaN
  end.

(** Cumulative sum of a column as [Series.cumsum] takes it: a missing
    cell stays missing and is left out of the running total. *)
Fixpoint cumsum_from (acc : float64) (c : Series) : Series :=
  match c with
  | [] => []
  | NaN :: rest => NaN :: cumsum_from acc rest
  | v :: rest => fadd acc v :: cumsum_from (fadd acc v) rest
  end.

Definition cumsum (c : Series) : Series := cumsum_from (Fin 0) c.

(** ** Example tables *)

(** Four trading days, two tickers, every price present. *)
Definition sample_prices : DataFrame :=
  {| index := ["2025-01-02"; "2025-01-03"; "2025-01-06"; "2025-01-07"]%string;
     columns := [("THYAO.IS"%string, [Fin 100; Fin 110; Fin 121; Fin 121]);
                 ("GARAN.IS"%string, [Fin 50; Fin 55; Fin 44; Fin 66])] |}.

(** Three trading days, one ticker, the last price missing. *)
Definition gap_prices : DataFrame :=
  {| index := ["2025-01-02"; "2025-01-03"; "2025-01-06"]%string;
     columns := [("THYAO.IS"%string, [Fin 100; Fin 110; NaN])] |}.

(** A table with one ticker and no trading day. *)
Definition empty_prices : DataFrame :=
  {| index := []; columns := [("THYAO.IS"%string, [])] |}.

(** Thirty trading days, one ticker, the price 100.0 on every day. *)
Definition constant_prices : DataFrame :=
  {| index := map (fun d => String (Ascii.ascii_of_nat (48 + d / 10))
                              (String (Ascii.ascii_of_nat (48 + d mod 10)) EmptyString))
                  (seq 0 30);
     columns := [("THYAO.IS"%string, repeat (Fin 100) 30)] |}.

(** A store operation only adds objects: the store it leaves is the one it
    found, followed by new objects. *)
Definition grows {A : Type} (m : Obj.M A) : Prop :=
  forall h, exists fresh, snd (m h) = h ++ fresh.

(** The result of the value-level function as a caller of the
    reference-level one sees it. *)
Definition observed (out : result (DataFrame * DataFrame))
  : result (option DataFrame * option DataFrame) :=
  match out with
  | Ok (vol, lr) => Ok (Some vol, Some lr)
  | Err e => Err e
  end.

(** A store in which the price table is the only object, and one in which
    it comes second. *)
Definition store_one : Obj.heap := [Obj.ODataFrame sample_prices].

Definition store_two : Obj.heap :=
  [Obj.ODataFrame gap_prices; Obj.ODataFrame sample_prices].

(** ** Reference notions for the correlation matrix *)

(** The rows of two columns in which both cells are finite. *)
Fixpoint complete_pairs (rows : list (float64 * float64)) : list (R * R) :=
  match rows with
  | [] => []
  | (Fin x, Fin y) :: rest => (x, y) :: complete_pairs rest
  | _ :: rest => complete_pairs rest
  end.

(** Sum of the products of the deviations from the two means. *)
Definition co_dev (ps : list (R * R)) : R :=
  Rsum (map (fun p => (fst p - mean (map fst ps)) * (snd p - mean (map snd ps))) ps).

(** Pearson's correlation coefficient of paired observations; it has no
    value when one of the two series has no spread. *)
Definition pearson (ps : list (R * R)) : option R :=
  let sxx := sum_sq_dev (map fst ps) in
  let syy := sum_sq_dev (map snd ps) in
  if Req_dec_T (sxx * syy) 0 then None
  else Some (co_dev ps / sqrt (sxx * syy)).

(** Pearson's coefficient of two columns over their pairwise-complete
    rows, as a cell. *)
Definition pearson_cell (x y : Series) : float64 :=
  match pearson (complete_pairs (combine x y)) with
  | Some rho => Fin rho
  | None => NaN
  end.

(** A column is not degenerate when two of its finite cells differ. *)
Definition nondegenerate (c : Series) : Prop :=
  exists x y, In (Fin x) c /\ In (Fin y) c /\ x <> y.

(** A world in which every call returns [None]. *)
Definition calm_world : world := fun _ _ => Returned_None.

(** A world whose download service answers with a Close table without
    rows or columns, whatever it is asked. *)
Definition empty_close_world : world :=
  fun _ c =>
    match c with
    | yf_download _ _ _ =>
        Returned_fields [("Close"%string, {| index := []; columns := [] |})]
    | _ => Returned_None
    end.

(** Log returns of two tickers over four days. *)
Definition sample_returns : DataFrame :=
  {| index := ["2025-01-02"; "2025-01-03"; "2025-01-06"; "2025-01-07"]%string;
     columns := [("THYAO.IS"%string, [NaN; Fin (1 / 100); Fin (- 2 / 100); Fin (3 / 100)]);
                 ("GARAN.IS"%string, [NaN; Fin (2 / 100); NaN; Fin (1 / 100)])] |}.

(** Returns of two tickers, the second of which did not move. *)
Definition flat_returns : DataFrame :=
  {| index := ["2025-01-02"; "2025-01-03"; "2025-01-06"; "2025-01-07"]%string;
     columns := [("THYAO.IS"%string, [NaN; Fin (1 / 100); Fin (- 2 / 100); Fin (3 / 100)]);
                 ("TUPRS.IS"%string, [NaN; Fin 0; Fin 0; Fin 0])] |}.

(** A price table with a zero quote on its second row. *)
Definition zero_quote_prices : DataFrame :=
  {| index := ["2025-01-02"; "2025-01-03"; "2025-01-06"; "2025-01-07"]%string;
     columns := [("THYAO.IS"%string, [Fin 100; Fin 0; Fin 105; Fin 110])] |}.

(** The prices of [sample_prices] with another last day. *)
Definition late_change_prices : DataFrame :=
  {| index := ["2025-01-02"; "2025-01-03"; "2025-01-06"; "2025-01-07"]%string;
     columns := [("THYAO.IS"%string, [Fin 100; Fin 110; Fin 121; Fin 90]);
                 ("GARAN.IS"%string, [Fin 50; Fin 55; Fin 44; Fin 70])] |}.

(** * Properties *)

(** ** Cells *)

Lemma fdiv_present (a b : R) : b <> 0 -> fdiv (Fin a) (Fin b) = Fin (a / b).
Proof.
  intros Hb. unfold fdiv. destruct (Req_dec_T b 0) as [E | _]; [contradiction | reflexivity].
Qed.

Lemma fdiv_NaN_r (a : float64) : fdiv a NaN = NaN.
Proof. destruct a; reflexivity. Qed.

Lemma fdiv_NaN_l (b : float64) : fdiv NaN b = NaN.
Proof. destruct b; reflexivity. Qed.

Lemma flog_positive (x : R) : 0 < x -> flog (Fin x) = Fin (ln x).
Proof.
  intros Hx. unfold flog. destruct (Rlt_dec 0 x) as [_ | N]; [reflexivity | contradiction].
Qed.

Lemma sqrt_252_pos : 0 < sqrt 252.
Proof. apply sqrt_lt_R0. lra. Qed.

Lemma np_sqrt_252 : np_sqrt (Fin 252) = Fin (sqrt 252).
Proof.
  unfold np_sqrt. destruct (Rlt_dec 252 0) as [H | _]; [lra | reflexivity].
Qed.

Lemma zsqrt_nonneg (x : R) : 0 <= x -> zsqrt (Fin x) = Fin (sqrt x).
Proof.
  intros Hx. unfold zsqrt. destruct (Rlt_dec x 0) as [H | _]; [lra | reflexivity].
Qed.

(** The log return of two present prices. *)
Lemma log_return_present (a b : R) :
  0 < a -> 0 < b -> flog (fdiv (Fin a) (Fin b)) = Fin (ln (a / b)).
Proof.
  intros Ha Hb. rewrite fdiv_present by lra.
  apply flog_positive. apply Rdiv_lt_0_compat; assumption.
Qed.

(** ** Shape of the result *)

Lemma combine_map_r {A B : Type} (f : A -> B) (l : list A) :
  combine l (map f l) = map (fun a => (a, f a)) l.
Proof. induction l as [| a l IH]; simpl; [reflexivity | now rewrite IH]. Qed.

Lemma df_log_returns_columns (data : DataFrame) :
  np_log (df_div data (df_shift data 1)) =
  {| index := index data;
     columns := map (fun nc => (fst nc, log_return_column (snd nc))) (columns data) |}.
Proof.
  unfold np_log, df_div, df_shift, df_zip, df_map. simpl. f_equal.
  rewrite combine_map_r. rewrite !map_map. reflexivity.
Qed.

Lemma rolling_ok (df : DataFrame) (w : Z) :
  (0 <= w)%Z ->
  rolling df w = Ok {| obj := df; window := Z.to_nat w; min_periods := Z.to_nat w |}.
Proof.
  intros Hw. unfold rolling. destruct (Z.ltb_spec w 0); [lia | reflexivity].
Qed.

Lemma rolling_negative (df : DataFrame) (w : Z) :
  (w < 0)%Z ->
  rolling df w = Err (ValueError "window must be an integer 0 or greater").
Proof.
  intros Hw. unfold rolling. destruct (Z.ltb_spec w 0); [reflexivity | lia].
Qed.

(** The two tables, column by column. *)
Lemma calculate_volatility_columns (data : DataFrame) (w : Z) :
  (0 <= w)%Z ->
  calculate_volatility data w =
  Ok ({| index := index data;
         columns := map (fun nc => (fst nc,
                       volatility_column (Z.to_nat w) (log_return_column (snd nc))))
                      (columns data) |},
      {| index := index data;
         columns := map (fun nc => (fst nc, log_return_column (snd nc)))
                      (columns data) |}).
Proof.
  intros Hw. unfold calculate_volatility.
  rewrite rolling_ok by assumption. rewrite df_log_returns_columns.
  unfold df_mul_scalar, rolling_std, df_map. simpl.
  rewrite !map_map. reflexivity.
Qed.

Lemma calculate_volatility_negative (data : DataFrame) (w : Z) :
  (w < 0)%Z ->
  calculate_volatility data w =
  Err (ValueError "window must be an integer 0 or greater").
Proof.
  intros Hw. unfold calculate_volatility. now rewrite rolling_negative.
Qed.
(** ** Log returns, column by column *)

Lemma nth_error_combine {A B : Type} (l : list A) (l' : list B) (n : nat) :
  nth_error (combine l l') n =
  match nth_error l n, nth_error l' n with
  | Some a, Some b => Some (a, b)
  | _, _ => None
  end.
Proof.
  revert l' n. induction l as [| a l IH]; intros [| b l'] [| n]; simpl; try reflexivity.
  - destruct (nth_error l n); reflexivity.
  - apply IH.
Qed.

Lemma shift_length (k : nat) (c : Series) : length (shift k c) = length c.
Proof.
  unfold shift. rewrite length_firstn, length_app. lia.
Qed.

Lemma nth_error_shift1_0 (a : float64) (q : Series) :
  nth_error (shift 1 (a :: q)) 0 = Some NaN.
Proof. reflexivity. Qed.

Lemma nth_error_shift1_S (c : Series) (t : nat) :
  (S t < length c)%nat -> nth_error (shift 1 c) (S t) = nth_error c t.
Proof.
  intros Ht. unfold shift. rewrite nth_error_firstn.
  destruct (Nat.ltb_spec (S t) (length c)); [reflexivity | lia].
Qed.

Lemma log_return_column_length (p : Series) :
  length (log_return_column p) = length p.
Proof.
  unfold log_return_column. rewrite !length_map, length_combine, shift_length. lia.
Qed.

(** The first row has no previous price. *)
Lemma log_return_column_first (a : float64) (q : Series) :
  nth_error (log_return_column (a :: q)) 0 = Some NaN.
Proof.
  unfold log_return_column. simpl. now rewrite fdiv_NaN_r.
Qed.

(** Every later row divides its price by the price one row above. *)
Lemma log_return_column_next (p : Series) (t : nat) (a b : float64) :
  nth_error p t = Some b ->
  nth_error p (S t) = Some a ->
  nth_error (log_return_column p) (S t) = Some (flog (fdiv a b)).
Proof.
  intros Hb Ha. unfold log_return_column.
  rewrite !nth_error_map, nth_error_combine, Ha.
  rewrite nth_error_shift1_S, Hb; [reflexivity |].
  apply nth_error_Some. congruence.
Qed.

Lemma roll_var_rows_length (w minp ddof : nat) (values : Series) (rows t : nat)
    (prev : var_state) :
  length (roll_var_rows w minp ddof values t rows prev) = rows.
Proof.
  revert t prev. induction rows as [| rows IH]; intros t prev; cbn [roll_var_rows length];
    [reflexivity | now rewrite IH].
Qed.

Lemma roll_var_length (w minp ddof : nat) (c : Series) :
  length (roll_var w minp ddof c) = length c.
Proof. unfold roll_var. apply roll_var_rows_length. Qed.

Lemma volatility_column_length (w : nat) (r : Series) :
  length (volatility_column w r) = length r.
Proof.
  unfold volatility_column, roll_std.
  now rewrite !length_map, roll_var_length.
Qed.
(** ** The running aggregate computes the textbook statistics *)

Lemma Rsum_app (xs ys : list R) : Rsum (xs ++ ys) = Rsum xs + Rsum ys.
Proof.
  induction xs as [| x xs IH]; simpl; [lra | rewrite IH; lra].
Qed.

Lemma mean_nil : mean [] = 0.
Proof. unfold mean. simpl. unfold Rdiv. apply Rmult_0_l. Qed.

Lemma INR_S_neq_0 (n : nat) : INR (S n) <> 0.
Proof. apply not_0_INR. discriminate. Qed.

Lemma Rsum_mean (xs : list R) : Rsum xs = INR (length xs) * mean xs.
Proof.
  destruct xs as [| x xs].
  - simpl. lra.
  - unfold mean. field. apply INR_S_neq_0.
Qed.

(** Squared deviations from any centre, through the power sums. *)
Lemma sum_sq_shift (c : R) (xs : list R) :
  Rsum (map (fun y => (y - c) * (y - c)) xs) =
  Rsum (map (fun y => y * y) xs) - 2 * c * Rsum xs + INR (length xs) * c * c.
Proof.
  induction xs as [| x xs IH].
  - simpl. lra.
  - cbn [map Rsum fold_right length]. fold (Rsum (map (fun y => (y - c) * (y - c)) xs)).
    fold (Rsum (map (fun y => y * y) xs)). fold (Rsum xs).
    rewrite IH, S_INR. lra.
Qed.

Lemma mean_snoc (xs : list R) (x : R) :
  mean (xs ++ [x]) = mean xs + (x - mean xs) / INR (S (length xs)).
Proof.
  unfold mean at 1. rewrite Rsum_app, length_app, Nat.add_1_r.
  cbn [Rsum fold_right]. rewrite (Rsum_mean xs), S_INR.
  field. rewrite <- S_INR. apply INR_S_neq_0.
Qed.

Lemma sum_sq_dev_snoc (xs : list R) (x : R) :
  sum_sq_dev (xs ++ [x]) =
  sum_sq_dev xs + (x - mean xs) * (x - mean (xs ++ [x])).
Proof.
  unfold sum_sq_dev. rewrite map_app, Rsum_app. cbn [map Rsum fold_right].
  rewrite !sum_sq_shift. rewrite mean_snoc.
  rewrite (Rsum_mean xs), S_INR.
  field. rewrite <- S_INR. apply INR_S_neq_0.
Qed.

(** One step of the aggregate on the statistics of a list. *)
Lemma add_var_snoc (xs : list R) (x : R) :
  add_var {| nobs := length xs; mean_x := mean xs; ssqdm_x := sum_sq_dev xs |} (Fin x) =
  {| nobs := length (xs ++ [x]); mean_x := mean (xs ++ [x]);
     ssqdm_x := sum_sq_dev (xs ++ [x]) |}.
Proof.
  unfold add_var. cbn [nobs mean_x ssqdm_x].
  rewrite sum_sq_dev_snoc, mean_snoc, length_app, Nat.add_1_r. reflexivity.
Qed.

(** After the observations [xs], the aggregate holds their count, their
    mean and their sum of squared deviations. *)
Lemma add_var_fold (xs : list R) :
  fold_left add_var (map Fin xs) var_init =
  {| nobs := length xs; mean_x := mean xs; ssqdm_x := sum_sq_dev xs |}.
Proof.
  induction xs as [| x xs IH] using rev_ind.
  - simpl. unfold var_init. rewrite mean_nil. reflexivity.
  - rewrite map_app, fold_left_app, IH. cbn [map fold_left].
    apply add_var_snoc.
Qed.

(** Missing cells do not touch the aggregate. *)
Lemma add_var_skips (c : Series) (st : var_state) :
  Forall (fun v => v = NaN \/ exists x, v = Fin x) c ->
  fold_left add_var c st = fold_left add_var (map Fin (finite_values c)) st.
Proof.
  intros H. revert st. induction H as [| v c Hv _ IH]; intros st; [reflexivity |].
  destruct Hv as [-> | [x ->]]; simpl; apply IH.
Qed.

Lemma prep_values_cells (c : Series) :
  Forall (fun v => v = NaN \/ exists x, v = Fin x) (prep_values c).
Proof.
  unfold prep_values. apply Forall_forall. intros v Hv.
  apply in_map_iff in Hv. destruct Hv as [u [<- _]].
  destruct u; simpl; eauto.
Qed.

Lemma sum_sq_dev_nonneg (xs : list R) : 0 <= sum_sq_dev xs.
Proof.
  unfold sum_sq_dev. generalize (mean xs). intros m.
  induction xs as [| x xs IH]; cbn [map Rsum fold_right]; [lra |].
  fold (Rsum (map (fun y => (y - m) * (y - m)) xs)).
  pose proof (Rle_0_sqr (x - m)) as Hsq. unfold Rsqr in Hsq. lra.
Qed.
(** ** Windows *)

Lemma finite_values_length_le (c : Series) :
  (length (finite_values c) <= length c)%nat.
Proof.
  induction c as [| v c IH]; simpl; [lia |]. destruct v; simpl; lia.
Qed.

Lemma all_finite_length (c : Series) :
  all_finite c = true -> length (finite_values c) = length c.
Proof.
  induction c as [| v c IH]; simpl; [reflexivity |].
  destruct v; simpl; try discriminate. intros H. now rewrite IH.
Qed.

Lemma not_all_finite_length (c : Series) :
  all_finite c = false -> (length (finite_values c) < length c)%nat.
Proof.
  induction c as [| v c IH]; simpl; [discriminate |].
  pose proof (finite_values_length_le c) as Hle.
  destruct v; simpl; intros H; try lia. apply IH in H. lia.
Qed.

Lemma all_finite_map_Fin (c : Series) :
  all_finite c = true -> c = map Fin (finite_values c).
Proof.
  induction c as [| v c IH]; simpl; [reflexivity |].
  destruct v; simpl; try discriminate. intros H. now rewrite <- IH.
Qed.

Lemma finite_values_map_Fin (xs : list R) : finite_values (map Fin xs) = xs.
Proof. induction xs as [| x xs IH]; simpl; [reflexivity | now rewrite IH]. Qed.

Lemma all_finite_map_Fin_true (xs : list R) : all_finite (map Fin xs) = true.
Proof. induction xs as [| x xs IH]; simpl; [reflexivity | exact IH]. Qed.

Lemma finite_values_prep (c : Series) :
  finite_values (prep_values c) = finite_values c.
Proof.
  induction c as [| v c IH]; simpl; [reflexivity |].
  destruct v; simpl; now rewrite IH.
Qed.

Lemma window_at_prep (w : nat) (c : Series) (t : nat) :
  window_at w (prep_values c) t = prep_values (window_at w c t).
Proof.
  unfold window_at, slice, prep_values. now rewrite skipn_map, firstn_map.
Qed.

(** The aggregate of a window holds the statistics of its finite cells. *)
Lemma window_aggregate (w : nat) (c : Series) (t : nat) :
  fold_left add_var (window_at w (prep_values c) t) var_init =
  let xs := finite_values (window_at w c t) in
  {| nobs := length xs; mean_x := mean xs; ssqdm_x := sum_sq_dev xs |}.
Proof.
  rewrite window_at_prep, add_var_skips by apply prep_values_cells.
  rewrite finite_values_prep. apply add_var_fold.
Qed.

Lemma window_at_length (w : nat) (c : Series) (t : nat) :
  (t < length c)%nat -> length (window_at w c t) = Nat.min w (S t).
Proof.
  intros Ht. unfold window_at, slice. rewrite length_firstn, length_skipn. lia.
Qed.

Lemma window_at_trailing (w : nat) (c : Series) (t : nat) :
  (w <= S t)%nat -> window_at w c t = firstn w (skipn (S t - w) c).
Proof.
  intros Hw. unfold window_at, slice. f_equal. lia.
Qed.

Lemma calc_var_short (minp ddof : nat) (st : var_state) :
  (nobs st < minp)%nat \/ (nobs st <= ddof)%nat -> calc_var minp ddof st = NaN.
Proof.
  intros H. unfold calc_var.
  destruct (Nat.leb_spec minp (nobs st)); destruct (Nat.ltb_spec ddof (nobs st));
    simpl; try reflexivity. lia.
Qed.

Lemma calc_var_full (minp : nat) (st : var_state) :
  (minp <= nobs st)%nat -> (2 <= nobs st)%nat ->
  calc_var minp 1 st = Fin (ssqdm_x st / (INR (nobs st) - 1)).
Proof.
  intros H1 H2. unfold calc_var.
  destruct (Nat.leb_spec minp (nobs st)); [| lia].
  destruct (Nat.ltb_spec 1 (nobs st)); [| lia].
  destruct (Nat.eqb_spec (nobs st) 1); [lia |]. reflexivity.
Qed.

Lemma sample_variance_nonneg (xs : list R) :
  (2 <= length xs)%nat -> 0 <= sum_sq_dev xs / (INR (length xs) - 1).
Proof.
  intros H. apply Rmult_le_pos; [apply sum_sq_dev_nonneg |].
  apply Rlt_le, Rinv_0_lt_compat.
  apply le_INR in H. simpl in H. lra.
Qed.

(** ** Sliding the aggregate *)

Lemma slice_nth_error (a b : nat) (c : Series) (i : nat) :
  nth_error (slice a b c) i = if (i <? b - a)%nat then nth_error c (a + i) else None.
Proof. unfold slice. now rewrite nth_error_firstn, nth_error_skipn. Qed.

Lemma slice_empty (a b : nat) (c : Series) : (b <= a)%nat -> slice a b c = [].
Proof. intros H. unfold slice. now replace (b - a)%nat with 0%nat by lia. Qed.

Lemma slice_cons (a b : nat) (c : Series) (v : float64) :
  (a < b)%nat -> nth_error c a = Some v -> slice a b c = v :: slice (S a) b c.
Proof.
  intros Hab Hv. apply nth_error_ext. intros [| i].
  - rewrite slice_nth_error. cbn [nth_error].
    destruct (Nat.ltb_spec 0 (b - a)); [| lia]. now rewrite Nat.add_0_r.
  - rewrite slice_nth_error. cbn [nth_error]. rewrite slice_nth_error.
    destruct (Nat.ltb_spec (S i) (b - a)); destruct (Nat.ltb_spec i (b - S a));
      try lia; [| reflexivity].
    now replace (S a + i)%nat with (a + S i)%nat by lia.
Qed.

Lemma slice_snoc (a b : nat) (c : Series) (v : float64) :
  (a <= b)%nat -> nth_error c b = Some v -> slice a (S b) c = slice a b c ++ [v].
Proof.
  intros Hab Hv.
  assert (b < length c)%nat as Hb by (apply nth_error_Some; congruence).
  assert (length (slice a b c) = (b - a)%nat) as Hlen
    by (unfold slice; rewrite length_firstn, length_skipn; lia).
  apply nth_error_ext. intros i. rewrite slice_nth_error.
  destruct (Nat.lt_trichotomy i (b - a)) as [Hi | [-> | Hi]].
  - rewrite nth_error_app1 by lia. rewrite slice_nth_error.
    destruct (Nat.ltb_spec i (S b - a)); destruct (Nat.ltb_spec i (b - a)); try lia.
    reflexivity.
  - rewrite nth_error_app2 by lia. rewrite Hlen, Nat.sub_diag. cbn [nth_error].
    destruct (Nat.ltb_spec (b - a) (S b - a)); [| lia].
    rewrite <- Hv. f_equal. lia.
  - rewrite nth_error_app2 by lia. rewrite Hlen.
    destruct (Nat.ltb_spec i (S b - a)); [lia |].
    destruct (i - (b - a))%nat as [| [| k]] eqn:E; try lia; reflexivity.
Qed.

Lemma mean_without_first (x : R) (ys : list R) :
  ys <> [] ->
  mean (x :: ys) - (x - mean (x :: ys)) / INR (length ys) = mean ys.
Proof.
  intros Hne. unfold mean. cbn [Rsum fold_right length]. fold (Rsum ys).
  destruct ys as [| y ys]; [contradiction |].
  set (n := length (y :: ys)). rewrite S_INR.
  assert (INR n <> 0) by apply INR_S_neq_0.
  assert (0 <= INR n) by apply pos_INR.
  field. split; lra.
Qed.

Lemma sum_sq_dev_without_first (x : R) (ys : list R) :
  ys <> [] ->
  sum_sq_dev (x :: ys) - (x - mean (x :: ys)) * (x - mean ys) = sum_sq_dev ys.
Proof.
  intros Hne. unfold sum_sq_dev. cbn [map Rsum fold_right].
  fold (Rsum (map (fun y => (y - mean (x :: ys)) * (y - mean (x :: ys))) ys)).
  rewrite !sum_sq_shift.
  unfold mean. cbn [Rsum fold_right length]. fold (Rsum ys).
  destruct ys as [| y ys]; [contradiction |].
  set (n := length (y :: ys)). rewrite S_INR.
  assert (INR n <> 0) by apply INR_S_neq_0.
  assert (0 <= INR n) by apply pos_INR.
  field. split; lra.
Qed.

(** Removing the first observation from the statistics of a list leaves
    the statistics of the rest. *)
Lemma remove_var_cons (x : R) (ys : list R) :
  remove_var {| nobs := length (x :: ys); mean_x := mean (x :: ys);
                ssqdm_x := sum_sq_dev (x :: ys) |} (Fin x) =
  {| nobs := length ys; mean_x := mean ys; ssqdm_x := sum_sq_dev ys |}.
Proof.
  unfold remove_var. cbn [nobs mean_x ssqdm_x length Nat.pred].
  destruct ys as [| y ys].
  - cbn [length Nat.eqb]. rewrite mean_nil. reflexivity.
  - cbn [Nat.eqb]. change (S (length ys)) with (length (y :: ys)).
    rewrite mean_without_first by discriminate.
    rewrite sum_sq_dev_without_first by discriminate. reflexivity.
Qed.

Lemma remove_var_first (v : float64) (rest : Series) :
  Forall (fun v => v = NaN \/ exists x, v = Fin x) (v :: rest) ->
  remove_var (fold_left add_var (v :: rest) var_init) v =
  fold_left add_var rest var_init.
Proof.
  intros Hc. inversion Hc as [| ? ? Hv Hrest]; subst.
  rewrite (add_var_skips rest) by exact Hrest.
  rewrite (add_var_skips (v :: rest)) by exact Hc.
  destruct Hv as [-> | [x ->]]; cbn [finite_values]; [reflexivity |].
  rewrite (add_var_fold (x :: finite_values rest)), add_var_fold.
  apply remove_var_cons.
Qed.

Lemma Forall_slice {P : float64 -> Prop} (a b : nat) (c : Series) :
  Forall P c -> Forall P (slice a b c).
Proof.
  intros H. apply Forall_forall. intros v Hv.
  rewrite Forall_forall in H. apply H.
  apply In_nth_error in Hv. destruct Hv as [i Hi].
  rewrite slice_nth_error in Hi.
  destruct (i <? b - a)%nat; [| discriminate].
  eapply nth_error_In. exact Hi.
Qed.

(** Sliding from the aggregate of the row above gives the aggregate of
    the window of the row. *)
Lemma slide_var_window (w : nat) (values : Series) (t : nat) (prev : var_state) :
  Forall (fun v => v = NaN \/ exists x, v = Fin x) values ->
  (t < length values)%nat ->
  ((1 <= t)%nat -> prev = fold_left add_var (window_at w values (t - 1)) var_init) ->
  slide_var w values t prev = fold_left add_var (window_at w values t) var_init.
Proof.
  intros Hc Ht Hprev. unfold slide_var.
  destruct (Nat.eqb_spec t 0) as [-> | Hpos]; [reflexivity |].
  destruct (Nat.leb_spec t (S t - w)) as [Hfresh | Hslide]; [reflexivity |].
  cbn [orb]. rewrite Hprev by lia. unfold window_at.
  replace (S (t - 1)) with t by lia.
  destruct (nth_error values t) as [vt |] eqn:Hvt;
    [| apply nth_error_None in Hvt; lia].
  rewrite (slice_snoc (S t - w) t values vt) by (assumption || lia).
  rewrite (slice_cons t (S t) values vt), (slice_empty (S t)) by (assumption || lia).
  rewrite fold_left_app. f_equal.
  destruct (Nat.le_gt_cases w t) as [Hfull | Hshort].
  - destruct (nth_error values (t - w)) as [v0 |] eqn:Hv0;
      [| apply nth_error_None in Hv0; lia].
    replace (S t - w)%nat with (S (t - w)) by lia.
    replace (S (t - 1) - w)%nat with (t - w)%nat by lia.
    rewrite (slice_cons (t - w) (S (t - w)) values v0), (slice_empty (S (t - w)))
      by (assumption || lia).
    rewrite (slice_cons (t - w) t values v0) by (assumption || lia).
    cbn [fold_left]. apply (remove_var_first v0).
    rewrite <- (slice_cons (t - w) t values v0) by (assumption || lia).
    now apply Forall_slice.
  - replace (S t - w)%nat with 0%nat by lia.
    replace (S (t - 1) - w)%nat with 0%nat by lia.
    replace (t - w)%nat with 0%nat by lia.
    rewrite (slice_empty 0 0) by lia. reflexivity.
Qed.

Lemma roll_var_rows_cell (w minp ddof : nat) (values : Series) (rows t k : nat)
    (prev : var_state) :
  Forall (fun v => v = NaN \/ exists x, v = Fin x) values ->
  (t + rows <= length values)%nat ->
  ((1 <= t)%nat -> prev = fold_left add_var (window_at w values (t - 1)) var_init) ->
  (k < rows)%nat ->
  nth_error (roll_var_rows w minp ddof values t rows prev) k =
  Some (calc_var minp ddof (fold_left add_var (window_at w values (t + k)) var_init)).
Proof.
  intros Hc. revert t k prev.
  induction rows as [| rows IH]; intros t k prev Hrows Hprev Hk; [lia |].
  cbn [roll_var_rows].
  rewrite (slide_var_window w values t prev Hc) by (assumption || lia).
  destruct k as [| k]; cbn [nth_error].
  - now rewrite Nat.add_0_r.
  - replace (t + S k)%nat with (S t + k)%nat by lia.
    apply IH; [lia | | lia].
    intros _. now replace (S t - 1)%nat with t by lia.
Qed.

(** Each cell of [roll_var] is the variance of the aggregate of its own
    window. *)
Lemma roll_var_cell (w minp ddof : nat) (c : Series) (t : nat) :
  (t < length c)%nat ->
  nth_error (roll_var w minp ddof c) t =
  Some (calc_var (Nat.max minp 1) ddof
          (fold_left add_var (window_at w (prep_values c) t) var_init)).
Proof.
  intros Ht. unfold roll_var.
  rewrite (roll_var_rows_cell w _ ddof (prep_values c) (length c) 0 t var_init).
  - reflexivity.
  - apply prep_values_cells.
  - unfold prep_values. rewrite length_map. lia.
  - lia.
  - exact Ht.
Qed.

(** Every cell of a volatility column is the cell the specification gives. *)
Lemma volatility_column_cell (w : nat) (r : Series) (t : nat) :
  (t < length r)%nat ->
  nth_error (volatility_column w r) t = Some (rolling_volatility_cell w r t).
Proof.
  intros Ht. unfold volatility_column, roll_std.
  rewrite !nth_error_map, roll_var_cell by exact Ht.
  cbn [option_map]. f_equal.
  rewrite window_aggregate. cbv zeta.
  pose proof (window_at_length w r t Ht) as Hlen.
  pose proof (finite_values_length_le (window_at w r t)) as Hle.
  unfold rolling_volatility_cell, trailing.
  destruct (Nat.leb_spec w (S t)) as [Hw | Hw].
  - rewrite <- (window_at_trailing w r t Hw).
    destruct (all_finite (window_at w r t)) eqn:Hfin.
    + apply all_finite_length in Hfin.
      destruct (Nat.leb_spec 2 w) as [H2 | H2]; cbn [andb].
      * rewrite calc_var_full by (cbn [nobs]; lia).
        cbn [nobs ssqdm_x].
        rewrite zsqrt_nonneg by (apply sample_variance_nonneg; lia).
        rewrite np_sqrt_252. reflexivity.
      * rewrite calc_var_short by (cbn [nobs]; lia). reflexivity.
    + apply not_all_finite_length in Hfin. cbn [andb].
      rewrite calc_var_short by (cbn [nobs]; lia). reflexivity.
  - rewrite calc_var_short by (cbn [nobs]; lia). reflexivity.
Qed.
(** ** The tables returned by [calculate_volatility] *)

Lemma nth_error_map_Some {A B : Type} (f : A -> B) (l : list A) (n : nat) (b : B) :
  nth_error (map f l) n = Some b ->
  exists a, nth_error l n = Some a /\ f a = b.
Proof.
  rewrite nth_error_map. destruct (nth_error l n) as [a |]; simpl; [| discriminate].
  intros [= <-]. eauto.
Qed.

Lemma nth_error_lt {A : Type} (l : list A) (n : nat) (a : A) :
  nth_error l n = Some a -> (n < length l)%nat.
Proof. intros H. apply nth_error_Some. congruence. Qed.

Lemma trailing_length (w : nat) (c win : Series) (t : nat) :
  (t < length c)%nat -> trailing w c t = Some win -> length win = w.
Proof.
  intros Ht. unfold trailing. destruct (Nat.leb_spec w (S t)); [| discriminate].
  intros [= <-]. rewrite length_firstn, length_skipn. destruct w; lia.
Qed.

(** A defined volatility cell is the annualised sample standard deviation
    of a full window of defined returns. *)
Lemma volatility_cell_defined (w : nat) (r : Series) (t : nat) (x : R) :
  nth_error (volatility_column w r) t = Some (Fin x) ->
  exists xs, trailing w r t = Some (map Fin xs) /\ length xs = w /\
             (2 <= w)%nat /\ x = sample_std xs * sqrt 252.
Proof.
  intros H. pose proof (nth_error_lt _ _ _ H) as Ht.
  rewrite volatility_column_length in Ht.
  rewrite volatility_column_cell in H by assumption.
  injection H as H. unfold rolling_volatility_cell in H.
  destruct (trailing w r t) as [win |] eqn:Hwin; [| discriminate].
  destruct (all_finite win) eqn:Hfin; cbn [andb] in H; [| discriminate].
  destruct (Nat.leb_spec 2 w) as [H2 | H2]; [| discriminate].
  injection H as <-. exists (finite_values win). repeat split.
  - f_equal. now apply all_finite_map_Fin.
  - rewrite all_finite_length by assumption. eapply trailing_length; eassumption.
  - assumption.
Qed.


Lemma volatility_cell_kind (w : nat) (r : Series) (t : nat) (c : float64) :
  nth_error (volatility_column w r) t = Some c -> c = NaN \/ exists x, c = Fin x.
Proof.
  intros H. pose proof (nth_error_lt _ _ _ H) as Ht.
  rewrite volatility_column_length in Ht.
  rewrite volatility_column_cell in H by assumption.
  injection H as <-. unfold rolling_volatility_cell.
  destruct (trailing w r t); [| now left].
  destruct (_ && _); eauto.
Qed.

(** A window of fewer than two rows never gives a value. *)
Lemma volatility_column_small_window (w : nat) (r : Series) :
  (w < 2)%nat -> volatility_column w r = repeat NaN (length r).
Proof.
  intros Hw. apply nth_error_ext. intros t.
  destruct (Nat.lt_ge_cases t (length r)) as [Ht | Ht].
  - rewrite volatility_column_cell, nth_error_repeat by assumption.
    f_equal. unfold rolling_volatility_cell.
    destruct (trailing w r t); [| reflexivity].
    destruct (Nat.leb_spec 2 w); [lia |]. now rewrite andb_false_r.
  - transitivity (@None float64); [| symmetry]; apply nth_error_None.
    + now rewrite volatility_column_length.
    + now rewrite repeat_length.
Qed.


(** C3 (as amended): with [window = 0] or [window = 1] the call raises no
    error; it returns the log-return table together with a volatility table
    of the same shape in which every cell is [NaN]. *)
Theorem C3_small_window_returns_all_nan (data : DataFrame) (window : Z) :
  window = 0%Z \/ window = 1%Z ->
  exists vol lr,
    calculate_volatility data window = Ok (vol, lr) /\
    index vol = index data /\
    length (columns vol) = length (columns data) /\
    forall s name p, nth_error (columns data) s = Some (name, p) ->
      nth_error (columns vol) s = Some (name, repeat NaN (length p)).
Proof.
  intros Hw. do 2 eexists. split; [apply calculate_volatility_columns; lia |].
  cbn [index columns]. split; [reflexivity |]. split; [apply length_map |].
  intros s name p Hp. rewrite nth_error_map, Hp. cbn [option_map fst snd].
  rewrite volatility_column_small_window by (destruct Hw; subst; simpl; lia).
  now rewrite log_return_column_length.
Qed.

Lemma C3_witness :
  (1%Z = 0%Z \/ 1%Z = 1%Z) /\
  exists vol lr, calculate_volatility sample_prices 1 = Ok (vol, lr).
Proof.
  split; [now right |].
  destruct (C3_small_window_returns_all_nan sample_prices 1 (or_intror eq_refl))
    as (vol & lr & H & _).
  exists vol, lr. exact H.
Defined.

(** C3, as stated, fails: on a four-day table the call with [window = 0]
    and with [window = 1] returns normally, and the volatility table it
    returns holds nothing but [NaN]. *)
Lemma C3_counterexample :
  (exists vol lr,
     calculate_volatility sample_prices 0 = Ok (vol, lr) /\
     map snd (columns vol) = [repeat NaN 4; repeat NaN 4]) /\
  (exists vol lr,
     calculate_volatility sample_prices 1 = Ok (vol, lr) /\
     map snd (columns vol) = [repeat NaN 4; repeat NaN 4]) /\
  (forall w e, w = 0%Z \/ w = 1%Z -> calculate_volatility sample_prices w <> Err e).
Proof.
  split; [| split].
  - do 2 eexists. split; [apply calculate_volatility_columns; lia |].
    cbn [columns sample_prices map fst snd].
    now rewrite !volatility_column_small_window by (simpl; lia).
  - do 2 eexists. split; [apply calculate_volatility_columns; lia |].
    cbn [columns sample_prices map fst snd].
    now rewrite !volatility_column_small_window by (simpl; lia).
  - intros w e Hw. rewrite calculate_volatility_columns by lia. discriminate.
Qed.
(** ** Columns without a missing price *)

Lemma present_prices_values (p : Series) :
  Forall present_price p ->
  exists xs, p = map Fin xs /\ Forall (fun x => 0 < x) xs.
Proof.
  induction 1 as [| v p Hv _ [xs [-> Hxs]]].
  - exists []. split; [reflexivity | constructor].
  - destruct v as [x | | |]; try contradiction.
    exists (x :: xs). split; [reflexivity | now constructor].
Qed.

Lemma log_returns_after (a : R) (q : list R) :
  0 < a -> Forall (fun x => 0 < x) q ->
  map flog (map (fun xy => fdiv (fst xy) (snd xy))
              (combine (map Fin q) (firstn (length (map Fin q)) (Fin a :: map Fin q)))) =
  map Fin (log_ratios (a :: q)).
Proof.
  intros Ha Hq. revert a Ha. induction Hq as [| b q Hb _ IH]; intros a Ha.
  - reflexivity.
  - cbn [map length firstn combine fst snd log_ratios log_ratios_from].
    rewrite log_return_present by assumption. f_equal.
    apply IH. assumption.
Qed.

(** With every price present, the log-return column is a missing first
    row followed by the logarithms of the successive price ratios. *)
Lemma log_return_column_present (a : R) (q : list R) :
  0 < a -> Forall (fun x => 0 < x) q ->
  log_return_column (map Fin (a :: q)) = NaN :: map Fin (log_ratios (a :: q)).
Proof.
  intros Ha Hq. unfold log_return_column, shift.
  cbn [map length repeat app firstn combine fst snd].
  rewrite fdiv_NaN_r. cbn [flog]. f_equal.
  now apply log_returns_after.
Qed.

Lemma log_ratios_length (a : R) (q : list R) :
  length (log_ratios (a :: q)) = length q.
Proof.
  revert a. induction q as [| b q IH]; intros a; [reflexivity |].
  cbn [log_ratios log_ratios_from length]. f_equal. apply (IH b).
Qed.

Lemma count_valid_map_Fin (xs : list R) : count_valid (map Fin xs) = length xs.
Proof.
  unfold count_valid. induction xs as [| x xs IH]; simpl; [reflexivity | now rewrite IH].
Qed.

Lemma count_valid_NaN_cons (c : Series) : count_valid (NaN :: c) = count_valid c.
Proof. reflexivity. Qed.

(** ** Volatility below a column that starts with a missing row *)

(** The first [w] rows have no value: the window is short or it holds the
    missing first row. *)
Lemma volatility_cell_first_rows (w : nat) (rest : Series) (t : nat) :
  (t < S (length rest))%nat -> (t < w)%nat ->
  nth_error (volatility_column w (NaN :: rest)) t = Some NaN.
Proof.
  intros Ht Hw. rewrite volatility_column_cell by exact Ht.
  unfold rolling_volatility_cell, trailing.
  destruct (Nat.leb_spec w (S t)); [| reflexivity].
  assert (S t - w = 0)%nat as -> by lia.
  destruct w as [| w]; [lia |]. reflexivity.
Qed.

(** From row [w] on, below defined returns, the value is defined. *)
Lemma volatility_cell_later (w : nat) (ys : list R) (t : nat) :
  (2 <= w)%nat -> (w <= t)%nat -> (t < S (length ys))%nat ->
  nth_error (volatility_column w (NaN :: map Fin ys)) t =
  Some (Fin (sample_std (firstn w (skipn (t - w) ys)) * sqrt 252)).
Proof.
  intros H2 Hw Ht.
  rewrite volatility_column_cell by (cbn [length]; rewrite length_map; exact Ht).
  unfold rolling_volatility_cell, trailing.
  destruct (Nat.leb_spec w (S t)); [| lia].
  assert (S t - w = S (t - w))%nat as -> by lia.
  cbn [skipn]. rewrite skipn_map, firstn_map.
  rewrite all_finite_map_Fin_true, finite_values_map_Fin.
  destruct (Nat.leb_spec 2 w); [| lia]. reflexivity.
Qed.

Lemma sample_std_nonneg (xs : list R) : 0 <= sample_std xs * sqrt 252.
Proof.
  apply Rmult_le_pos; [apply sqrt_pos | apply Rlt_le, sqrt_252_pos].
Qed.

(** ** Constant prices *)

Lemma log_ratios_constant (c : R) (n : nat) :
  0 < c -> log_ratios (repeat c (S n)) = repeat 0 n.
Proof.
  intros Hc. cbn [repeat log_ratios].
  induction n as [| n IH]; [reflexivity |].
  cbn [repeat log_ratios_from]. rewrite IH. f_equal.
  unfold Rdiv. rewrite Rinv_r by lra. apply ln_1.
Qed.

Lemma skipn_repeat {A : Type} (a : A) (k n : nat) :
  skipn k (repeat a n) = repeat a (n - k).
Proof.
  revert n. induction k as [| k IH]; intros [| n]; simpl; try reflexivity. apply IH.
Qed.

Lemma firstn_repeat {A : Type} (a : A) (k n : nat) :
  firstn k (repeat a n) = repeat a (Nat.min k n).
Proof.
  revert n. induction k as [| k IH]; intros [| n]; simpl; try reflexivity.
  now rewrite IH.
Qed.

Lemma Rsum_repeat_0 (n : nat) : Rsum (repeat 0 n) = 0.
Proof. induction n as [| n IH]; simpl; [reflexivity |]. fold (Rsum (repeat 0 n)). lra. Qed.

Lemma sample_std_zeros (n : nat) : sample_std (repeat 0 n) = 0.
Proof.
  unfold sample_std, sum_sq_dev.
  assert (mean (repeat 0 n) = 0) as ->.
  { unfold mean. rewrite Rsum_repeat_0. unfold Rdiv. apply Rmult_0_l. }
  assert (map (fun x => (x - 0) * (x - 0)) (repeat 0 n) = repeat 0 n) as ->.
  { induction n as [| n IH]; simpl; [reflexivity |]. rewrite IH. f_equal. lra. }
  rewrite Rsum_repeat_0. unfold Rdiv. rewrite Rmult_0_l. apply sqrt_0.
Qed.
(** ** Claims on the log-return table *)

Lemma cell_first_column (i : list string) (name : string) (c : Series)
    (rest : list (string * Series)) (t : nat) :
  cell {| index := i; columns := (name, c) :: rest |} t 0 = nth_error c t.
Proof. reflexivity. Qed.

Lemma price_cell_positive (p : Series) (t : nat) (x : R) :
  Forall price_cell p -> nth_error p t = Some (Fin x) -> 0 < x.
Proof.
  intros Hp Ht. apply nth_error_In in Ht.
  rewrite Forall_forall in Hp. exact (Hp _ Ht).
Qed.

(** A missing price makes the return of its own row missing. *)
Lemma log_return_missing_here (p : Series) (t : nat) :
  nth_error p t = Some NaN -> nth_error (log_return_column p) t = Some NaN.
Proof.
  intros Ht. destruct t as [| t].
  - destruct p as [| a q]; [discriminate |]. apply log_return_column_first.
  - destruct (nth_error p t) as [b |] eqn:Hb.
    + rewrite (log_return_column_next p t NaN b Hb Ht). now rewrite fdiv_NaN_l.
    + apply nth_error_None in Hb. apply nth_error_lt in Ht. lia.
Qed.

(** A missing price makes the return of the next row missing. *)
Lemma log_return_missing_above (p : Series) (t : nat) :
  nth_error p t = Some NaN -> (S t < length p)%nat ->
  nth_error (log_return_column p) (S t) = Some NaN.
Proof.
  intros Ht Hlen. destruct (nth_error p (S t)) as [a |] eqn:Ha.
  - rewrite (log_return_column_next p t a NaN Ht Ha). now rewrite fdiv_NaN_r.
  - apply nth_error_None in Ha. lia.
Qed.

(** C2 (as amended): for every price table, in each column on its own, the
    log-return cell of row [t >= 1] is [ln (price[t] / price[t-1])] when
    both prices are present; the cell of row 0, of a row whose own price is
    missing and of the row right after a missing price is missing ([NaN],
    not zero, and no error is raised). *)
Theorem C2_log_return_cells (data : DataFrame) (window : Z) :
  (0 <= window)%Z -> price_table data ->
  exists vol lr,
    calculate_volatility data window = Ok (vol, lr) /\
    index lr = index data /\
    length (columns lr) = length (columns data) /\
    forall s name p, nth_error (columns data) s = Some (name, p) ->
    exists r,
      nth_error (columns lr) s = Some (name, r) /\
      length r = length p /\
      ((1 <= length p)%nat -> nth_error r 0 = Some NaN) /\
      (forall t a b, nth_error p t = Some (Fin b) -> nth_error p (S t) = Some (Fin a) ->
         nth_error r (S t) = Some (Fin (ln (a / b)))) /\
      (forall t, nth_error p t = Some NaN -> nth_error r t = Some NaN) /\
      (forall t, nth_error p t = Some NaN -> (S t < length p)%nat ->
         nth_error r (S t) = Some NaN).
Proof.
  intros Hw Hprices. do 2 eexists.
  split; [now apply calculate_volatility_columns |].
  cbn [index columns]. split; [reflexivity |]. split; [apply length_map |].
  intros s name p Hp. exists (log_return_column p).
  rewrite nth_error_map, Hp. cbn [option_map fst snd].
  assert (Forall price_cell p) as Hcells
    by (eapply Hprices, nth_error_In; exact Hp).
  split; [reflexivity |]. split; [apply log_return_column_length |].
  split; [| split; [| split]].
  - destruct p as [| a q]; cbn [length]; [lia |].
    intros _. apply log_return_column_first.
  - intros t a b Hb Ha.
    rewrite (log_return_column_next p t _ _ Hb Ha). f_equal.
    apply log_return_present; eapply price_cell_positive; eassumption.
  - apply log_return_missing_here.
  - apply log_return_missing_above.
Qed.

Lemma price_table_gap_prices : price_table gap_prices.
Proof.
  intros name c [[= <- <-] | []].
  repeat constructor; cbn [price_cell]; lra.
Qed.

Lemma C2_witness :
  (0 <= 21)%Z /\ price_table gap_prices /\
  exists vol lr, calculate_volatility gap_prices 21 = Ok (vol, lr) /\
                 cell lr 2 0 = Some NaN.
Proof.
  split; [lia |]. split; [exact price_table_gap_prices |].
  destruct (C2_log_return_cells gap_prices 21 ltac:(lia) price_table_gap_prices)
    as (vol & lr & Hrun & _ & _ & Hcols).
  destruct (Hcols 0%nat _ _ eq_refl) as (r & Hr & _ & _ & _ & Hhere & _).
  exists vol, lr. split; [exact Hrun |].
  unfold cell. rewrite Hr. apply Hhere. reflexivity.
Defined.

(** C2, as stated, fails: the return of a row that stands right before a
    missing price is a number.  Row 1 is next to the missing price of
    row 2, and its return is [ln (110 / 100)]. *)
Lemma C2_counterexample :
  price_table gap_prices /\
  exists vol lr,
    calculate_volatility gap_prices 21 = Ok (vol, lr) /\
    cell gap_prices 2 0 = Some NaN /\
    cell lr 1 0 = Some (Fin (ln (110 / 100))) /\
    cell lr 1 0 <> Some NaN.
Proof.
  split; [exact price_table_gap_prices |].
  do 2 eexists. split; [apply calculate_volatility_columns; lia |].
  split; [reflexivity |].
  assert (cell {| index := index gap_prices;
                  columns := map (fun nc => (fst nc, log_return_column (snd nc)))
                               (columns gap_prices) |} 1 0 =
          Some (Fin (ln (110 / 100)))) as H.
  { cbn [columns gap_prices map fst snd]. rewrite cell_first_column.
    rewrite (log_return_column_next [Fin 100; Fin 110; NaN] 0 (Fin 110) (Fin 100)
               eq_refl eq_refl).
    f_equal. apply log_return_present; lra. }
  split; [exact H |]. rewrite H. discriminate.
Qed.

(** ** Claims on tables without a missing price *)

(** C5 (as amended): for every price table with no missing value and every
    window of at least 2, in each column that has at least one row the
    return column has exactly one valid row fewer than the price column;
    the volatility column is undefined in its first [window] rows (so also
    at the first [window - 1] valid rows of the returns), defined from row
    [window] on, and every defined value is a number that is not
    negative. *)
Theorem C5_shapes_without_missing_prices (data : DataFrame) (window : Z) :
  (2 <= window)%Z -> no_missing data ->
  exists vol lr,
    calculate_volatility data window = Ok (vol, lr) /\
    forall s name p, nth_error (columns data) s = Some (name, p) ->
    (1 <= length p)%nat ->
    exists v r,
      nth_error (columns vol) s = Some (name, v) /\
      nth_error (columns lr) s = Some (name, r) /\
      (count_valid r + 1 = count_valid p)%nat /\
      length v = length p /\
      (forall t, (t < length p)%nat -> (t < Z.to_nat window)%nat ->
         nth_error v t = Some NaN) /\
      (forall t, (Z.to_nat window <= t)%nat -> (t < length p)%nat ->
         exists x, nth_error v t = Some (Fin x)) /\
      (forall t x, nth_error v t = Some (Fin x) -> 0 <= x) /\
      (forall t c, nth_error v t = Some c -> c = NaN \/ exists x, c = Fin x).
Proof.
  intros Hw Hdata. do 2 eexists.
  split; [apply calculate_volatility_columns; lia |].
  cbn [columns]. intros s name p Hp Hrows.
  do 2 eexists. rewrite !nth_error_map, Hp. cbn [option_map fst snd].
  split; [reflexivity |]. split; [reflexivity |].
  assert (Forall present_price p) as Hcells
    by (eapply Hdata, nth_error_In; exact Hp).
  destruct (present_prices_values p Hcells) as (xs & -> & Hpos).
  destruct xs as [| a q]; [cbn [map length] in Hrows; lia |].
  inversion Hpos as [| ? ? Ha Hq]; subst.
  rewrite log_return_column_present by assumption.
  rewrite length_map. cbn [length].
  split; [| split; [| split; [| split; [| split]]]].
  - rewrite count_valid_NaN_cons, !count_valid_map_Fin, log_ratios_length.
    cbn [length]. lia.
  - rewrite volatility_column_length. cbn [length].
    now rewrite length_map, log_ratios_length.
  - intros t Ht Hearly. apply volatility_cell_first_rows; [| assumption].
    now rewrite length_map, log_ratios_length.
  - intros t Hlate Ht. eexists. apply volatility_cell_later; try lia.
    now rewrite log_ratios_length.
  - intros t x Hx. apply volatility_cell_defined in Hx.
    destruct Hx as (ys & _ & _ & _ & ->). apply sample_std_nonneg.
  - intros t c. apply volatility_cell_kind.
Qed.

Lemma no_missing_sample_prices : no_missing sample_prices.
Proof.
  intros name c [[= <- <-] | [[= <- <-] | []]];
    repeat constructor; cbn [present_price]; lra.
Qed.

Lemma C5_witness :
  (2 <= 2)%Z /\ no_missing sample_prices /\
  exists vol lr, calculate_volatility sample_prices 2 = Ok (vol, lr) /\
                 cell vol 1 0 = Some NaN /\
                 exists x, cell vol 2 0 = Some (Fin x).
Proof.
  split; [lia |]. split; [exact no_missing_sample_prices |].
  destruct (C5_shapes_without_missing_prices sample_prices 2 ltac:(lia)
              no_missing_sample_prices) as (vol & lr & Hrun & Hcols).
  destruct (Hcols 0%nat _ _ eq_refl ltac:(simpl; lia))
    as (v & r & Hv & _ & _ & _ & Hearly & Hlate & _).
  exists vol, lr. split; [exact Hrun |].
  unfold cell. rewrite Hv. split.
  - apply Hearly; simpl; lia.
  - apply Hlate; simpl; lia.
Defined.

Lemma no_missing_empty_prices : no_missing empty_prices.
Proof. intros name c [[= <- <-] | []]. constructor. Qed.

(** C5, as stated, fails on a table without rows: it has no missing value,
    and its return column has as many valid rows as its price column
    (none), not one fewer. *)
Lemma C5_counterexample :
  no_missing empty_prices /\
  exists vol lr,
    calculate_volatility empty_prices 21 = Ok (vol, lr) /\
    map (fun nc => count_valid (snd nc)) (columns empty_prices) = [0%nat] /\
    map (fun nc => count_valid (snd nc)) (columns lr) = [0%nat].
Proof.
  split; [exact no_missing_empty_prices |].
  do 2 eexists. split; [apply calculate_volatility_columns; lia |].
  split; reflexivity.
Qed.

(** ** Round trip through the cumulative sum *)

(** Running totals of the log returns rebuild the price ratios. *)
Lemma exp_cumsum_log_ratios (q : list R) :
  Forall (fun x => 0 < x) q ->
  forall (a acc : R) (t : nat) (pt : R),
    0 < a ->
    nth_error q t = Some pt ->
    nth_error (map fexp (cumsum_from (Fin acc) (map Fin (log_ratios (a :: q))))) t =
    Some (Fin (exp acc * (pt / a))).
Proof.
  induction 1 as [| b q Hb _ IH]; intros a acc t pt Ha Ht.
  - destruct t; discriminate.
  - cbn [log_ratios log_ratios_from map cumsum_from fadd fexp].
    assert (0 < b / a) as Hba by (apply Rdiv_lt_0_compat; assumption).
    assert (exp (acc + ln (b / a)) = exp acc * (b / a)) as Hexp
      by (rewrite exp_plus, exp_ln; [reflexivity | assumption]).
    destruct t as [| t]; cbn [nth_error].
    + injection Ht as <-. now rewrite Hexp.
    + specialize (IH b (acc + ln (b / a)) t pt Hb Ht).
      cbn [log_ratios] in IH. rewrite IH, Hexp. do 2 f_equal.
      field. split; lra.
Qed.

Lemma exp_sum_log_ratios (q : list R) :
  Forall (fun x => 0 < x) q ->
  forall (a : R) (t : nat) (pt : R),
    0 < a ->
    nth_error q t = Some pt ->
    exp (Rsum (firstn (S t) (log_ratios (a :: q)))) = pt / a.
Proof.
  induction 1 as [| b q Hb _ IH]; intros a t pt Ha Ht.
  - destruct t; discriminate.
  - cbn [log_ratios log_ratios_from firstn Rsum fold_right].
    assert (0 < b / a) as Hba by (apply Rdiv_lt_0_compat; assumption).
    rewrite exp_plus, exp_ln by assumption.
    destruct t as [| t]; cbn [nth_error] in Ht.
    + injection Ht as <-. cbn [firstn fold_right]. rewrite exp_0. lra.
    + specialize (IH b t pt Hb Ht). cbn [log_ratios firstn] in IH.
      fold (Rsum (firstn (S t) (log_ratios_from b q))).
      cbn [firstn]. rewrite IH. field. split; lra.
Qed.

(** C6 (as amended): for every column of a price table that has no missing
    price, applying [exp] to the cumulative sum of the log returns that
    [calculate_volatility] produces gives back, at every row after the
    first, the price of that row divided by the starting price; at the
    first row it gives [NaN], not 1. *)
Theorem C6_exp_cumsum_rebuilds_prices (data : DataFrame) (window : Z)
    (s : nat) (name : string) (p : Series) :
  (0 <= window)%Z ->
  nth_error (columns data) s = Some (name, p) ->
  Forall present_price p ->
  exists vol lr r,
    calculate_volatility data window = Ok (vol, lr) /\
    nth_error (columns lr) s = Some (name, r) /\
    ((1 <= length p)%nat -> nth_error (map fexp (cumsum r)) 0 = Some NaN) /\
    forall t p0 pt,
      (1 <= t)%nat ->
      nth_error p 0 = Some (Fin p0) ->
      nth_error p t = Some (Fin pt) ->
      nth_error (map fexp (cumsum r)) t = Some (Fin (pt / p0)) /\
      pt = p0 * exp (Rsum (firstn t (finite_values r))).
Proof.
  intros Hw Hp Hcells. do 3 eexists.
  split; [now apply calculate_volatility_columns |].
  cbn [columns]. rewrite nth_error_map, Hp. cbn [option_map fst snd].
  split; [reflexivity |].
  destruct (present_prices_values p Hcells) as (xs & -> & Hpos).
  split.
  { destruct xs as [| a q]; [cbn [map length]; lia |]. intros _.
    inversion Hpos as [| ? ? Ha Hq]; subst.
    rewrite log_return_column_present by assumption. reflexivity. }
  intros t p0 pt Ht H0 Hpt.
  destruct xs as [| a q]; [discriminate |].
  injection H0 as <-.
  inversion Hpos as [| ? ? Ha Hq]; subst.
  destruct t as [| t]; [lia |].
  cbn [map nth_error] in Hpt.
  apply nth_error_map_Some in Hpt. destruct Hpt as (x & Hx & [= ->]).
  rewrite log_return_column_present by assumption.
  split.
  - unfold cumsum. cbn [cumsum_from map nth_error].
    rewrite (exp_cumsum_log_ratios q Hq a 0 t pt Ha Hx).
    rewrite exp_0. do 2 f_equal. lra.
  - cbn [finite_values]. rewrite finite_values_map_Fin.
    rewrite (exp_sum_log_ratios q Hq a t pt Ha Hx). field. lra.
Qed.

Lemma C6_witness :
  (0 <= 2)%Z /\
  nth_error (columns sample_prices) 0 =
    Some ("THYAO.IS"%string, [Fin 100; Fin 110; Fin 121; Fin 121]) /\
  Forall present_price [Fin 100; Fin 110; Fin 121; Fin 121] /\
  exists vol lr r,
    calculate_volatility sample_prices 2 = Ok (vol, lr) /\
    nth_error (columns lr) 0 = Some ("THYAO.IS"%string, r) /\
    nth_error (map fexp (cumsum r)) 2 = Some (Fin (121 / 100)).
Proof.
  assert (Forall present_price [Fin 100; Fin 110; Fin 121; Fin 121]) as Hcells
    by (repeat constructor; cbn [present_price]; lra).
  split; [lia |]. split; [reflexivity |]. split; [exact Hcells |].
  destruct (C6_exp_cumsum_rebuilds_prices sample_prices 2 0 _ _
              ltac:(lia) eq_refl Hcells) as (vol & lr & r & Hrun & Hr & _ & Hcum).
  exists vol, lr, r. split; [exact Hrun |]. split; [exact Hr |].
  apply (Hcum 2%nat 100 121); [lia | reflexivity | reflexivity].
Defined.

(** C6, as stated, fails at the first row: the first log return is
    missing, the cumulative sum keeps it missing, and [exp] of it is
    [NaN], not the starting price divided by itself. *)
Lemma C6_counterexample :
  Forall present_price [Fin 100; Fin 110; Fin 121; Fin 121] /\
  exists vol lr r,
    calculate_volatility sample_prices 2 = Ok (vol, lr) /\
    nth_error (columns sample_prices) 0 =
      Some ("THYAO.IS"%string, [Fin 100; Fin 110; Fin 121; Fin 121]) /\
    nth_error (columns lr) 0 = Some ("THYAO.IS"%string, r) /\
    nth_error (map fexp (cumsum r)) 0 = Some NaN /\
    nth_error (map fexp (cumsum r)) 0 <> Some (Fin (100 / 100)).
Proof.
  split; [repeat constructor; cbn [present_price]; lra |].
  do 3 eexists. split; [apply calculate_volatility_columns; lia |].
  split; [reflexivity |].
  cbn [columns sample_prices map nth_error fst snd]. split; [reflexivity |].
  change [Fin 100; Fin 110; Fin 121; Fin 121] with (map Fin [100; 110; 121; 121]).
  rewrite (log_return_column_present 100 [110; 121; 121]) by (repeat constructor; lra).
  split; [reflexivity | discriminate].
Qed.

(** ** Thirty days at a constant price *)

Lemma constant_log_returns :
  log_return_column (repeat (Fin 100) 30) = NaN :: map Fin (repeat 0 29).
Proof.
  rewrite <- (map_repeat 100 30 Fin).
  change (repeat 100 30) with (100 :: repeat 100 29).
  rewrite log_return_column_present.
  - change (100 :: repeat 100 29) with (repeat 100 (S 29)).
    rewrite log_ratios_constant by lra. reflexivity.
  - lra.
  - apply Forall_forall. intros x Hx. apply repeat_spec in Hx. lra.
Qed.

Lemma constant_volatility_early (t : nat) :
  (t < 21)%nat ->
  nth_error (volatility_column 21 (NaN :: map Fin (repeat 0 29))) t = Some NaN.
Proof.
  intros Ht. apply volatility_cell_first_rows; [| exact Ht].
  rewrite length_map, repeat_length. lia.
Qed.

Lemma constant_volatility_later (t : nat) :
  (21 <= t)%nat -> (t < 30)%nat ->
  nth_error (volatility_column 21 (NaN :: map Fin (repeat 0 29))) t = Some (Fin 0).
Proof.
  intros Hlate Ht. rewrite volatility_cell_later.
  - rewrite skipn_repeat, firstn_repeat, sample_std_zeros. do 2 f_equal. lra.
  - lia.
  - exact Hlate.
  - rewrite repeat_length. lia.
Qed.

(** C8 (as amended): thirty trading days, one ticker, the price 100.0 on
    every day, [window = 21].  The log return of day 0 is missing and the
    log returns of days 1 to 29 are 0.0; the rolling volatility is
    undefined on days 0 to 20 and is exactly 0.0 on days 21 to 29. *)
Theorem C8_constant_prices :
  exists vol lr,
    calculate_volatility constant_prices 21 = Ok (vol, lr) /\
    cell lr 0 0 = Some NaN /\
    (forall t, (1 <= t)%nat -> (t < 30)%nat -> cell lr t 0 = Some (Fin 0)) /\
    (forall t, (t < 21)%nat -> cell vol t 0 = Some NaN) /\
    (forall t, (21 <= t)%nat -> (t < 30)%nat -> cell vol t 0 = Some (Fin 0)).
Proof.
  do 2 eexists. split; [apply calculate_volatility_columns; lia |].
  cbn [columns constant_prices map fst snd].
  rewrite !cell_first_column, constant_log_returns.
  split; [reflexivity |]. split; [| split].
  - intros [| t] H1 H30; [lia |].
    change (nth_error (map Fin (repeat 0 29)) t = Some (Fin 0)).
    rewrite nth_error_map, nth_error_repeat by lia. reflexivity.
  - intros t Ht. now apply constant_volatility_early.
  - intros t Hlate Ht. now apply constant_volatility_later.
Qed.

(** C8, as stated, fails on day 20: the window of that day still holds
    the missing return of day 0, so the volatility there is undefined and
    not 0.0. *)
Lemma C8_counterexample :
  exists vol lr,
    calculate_volatility constant_prices 21 = Ok (vol, lr) /\
    cell vol 20 0 = Some NaN /\
    cell vol 20 0 <> Some (Fin 0).
Proof.
  do 2 eexists. split; [apply calculate_volatility_columns; lia |].
  cbn [columns constant_prices map fst snd].
  rewrite !cell_first_column, constant_log_returns.
  rewrite constant_volatility_early by lia. split; [reflexivity | discriminate].
Qed.
(** ** The store *)

Lemma nth_error_fresh {A : Type} (h fresh : list A) (k : nat) :
  nth_error (h ++ fresh) (length h + k) = nth_error fresh k.
Proof.
  rewrite nth_error_app2 by lia. f_equal. lia.
Qed.

Lemma nth_error_old {A : Type} (h fresh : list A) (a : nat) (o : A) :
  nth_error h a = Some o -> nth_error (h ++ fresh) a = Some o.
Proof.
  intros H. rewrite nth_error_app1; [exact H |]. eapply nth_error_lt; exact H.
Qed.

Lemma bind_ok {A B : Type} (m : Obj.M A) (f : A -> Obj.M B) (h h' : Obj.heap) (a : A) :
  m h = (Ok a, h') -> Obj.bind m f h = f a h'.
Proof. intros H. unfold Obj.bind. now rewrite H. Qed.

Lemma bind_err {A B : Type} (m : Obj.M A) (f : A -> Obj.M B) (h h' : Obj.heap) (e : exn) :
  m h = (Err e, h') -> Obj.bind m f h = (Err e, h').
Proof. intros H. unfold Obj.bind. now rewrite H. Qed.

Lemma load_frame_ok (r : nat) (h : Obj.heap) (df : DataFrame) :
  nth_error h r = Some (Obj.ODataFrame df) -> Obj.load_frame r h = (Ok df, h).
Proof. intros H. unfold Obj.load_frame. now rewrite H. Qed.

Lemma load_frame_fail (r : nat) (h : Obj.heap) :
  (forall df, nth_error h r <> Some (Obj.ODataFrame df)) ->
  Obj.load_frame r h = (Err Obj.attribute_error, h).
Proof.
  intros H. unfold Obj.load_frame.
  destruct (nth_error h r) as [[df | ? ? ?] |]; try reflexivity.
  now destruct (H df).
Qed.

Lemma load_rolling_ok (r : nat) (h : Obj.heap) (target w minp : nat) :
  nth_error h r = Some (Obj.ORolling target w minp) ->
  Obj.load_rolling r h = (Ok (target, w, minp), h).
Proof. intros H. unfold Obj.load_rolling. now rewrite H. Qed.

(** *** Every operation only adds objects *)

Lemma grows_ret {A : Type} (a : A) : grows (Obj.ret a).
Proof. intros h. exists []. cbn. now rewrite app_nil_r. Qed.

Lemma grows_raise {A : Type} (e : exn) : grows (@Obj.raise A e).
Proof. intros h. exists []. cbn. now rewrite app_nil_r. Qed.

Lemma grows_alloc (o : Obj.object) : grows (Obj.alloc o).
Proof. intros h. exists [o]. reflexivity. Qed.

Lemma grows_load_frame (r : nat) : grows (Obj.load_frame r).
Proof.
  intros h. exists []. rewrite app_nil_r. unfold Obj.load_frame.
  destruct (nth_error h r) as [[? | ? ? ?] |]; reflexivity.
Qed.

Lemma grows_load_rolling (r : nat) : grows (Obj.load_rolling r).
Proof.
  intros h. exists []. rewrite app_nil_r. unfold Obj.load_rolling.
  destruct (nth_error h r) as [[? | ? ? ?] |]; reflexivity.
Qed.

Lemma grows_bind {A B : Type} (m : Obj.M A) (f : A -> Obj.M B) :
  grows m -> (forall a, grows (f a)) -> grows (Obj.bind m f).
Proof.
  intros Hm Hf h. unfold Obj.bind.
  destruct (Hm h) as [fresh1 H1]. destruct (m h) as [[a | e] h1]; cbn [snd] in H1; subst h1.
  - destruct (Hf a (h ++ fresh1)) as [fresh2 H2].
    exists (fresh1 ++ fresh2). now rewrite H2, app_assoc.
  - exists fresh1. reflexivity.
Qed.

Lemma grows_calculate_volatility (data : nat) (window : Z) :
  grows (Obj.calculate_volatility data window).
Proof.
  unfold Obj.calculate_volatility, Obj.shift, Obj.div, Obj.log, Obj.rolling,
    Obj.std, Obj.mul.
  repeat first
    [ apply grows_bind; [| intros ?]
    | apply grows_ret | apply grows_alloc | apply grows_load_frame
    | apply grows_load_rolling
    | match goal with
      | |- grows (match ?x with _ => _ end) => destruct x
      | |- grows (let '(_, _) := ?x in _) => destruct x
      end
    | apply grows_raise ].
Qed.
(** *** One run, step by step *)

Lemma shift_run (h : Obj.heap) (data : nat) (df : DataFrame) (periods : nat) :
  nth_error h data = Some (Obj.ODataFrame df) ->
  Obj.shift data periods h =
  (Ok (length h), h ++ [Obj.ODataFrame (df_shift df periods)]).
Proof.
  intros H. unfold Obj.shift. now rewrite (bind_ok _ _ _ _ _ (load_frame_ok _ _ _ H)).
Qed.

Lemma div_run (h : Obj.heap) (a b : nat) (x y : DataFrame) :
  nth_error h a = Some (Obj.ODataFrame x) ->
  nth_error h b = Some (Obj.ODataFrame y) ->
  Obj.div a b h = (Ok (length h), h ++ [Obj.ODataFrame (df_div x y)]).
Proof.
  intros Ha Hb. unfold Obj.div.
  rewrite (bind_ok _ _ _ _ _ (load_frame_ok _ _ _ Ha)).
  now rewrite (bind_ok _ _ _ _ _ (load_frame_ok _ _ _ Hb)).
Qed.

Lemma log_run (h : Obj.heap) (a : nat) (x : DataFrame) :
  nth_error h a = Some (Obj.ODataFrame x) ->
  Obj.log a h = (Ok (length h), h ++ [Obj.ODataFrame (np_log x)]).
Proof.
  intros Ha. unfold Obj.log. now rewrite (bind_ok _ _ _ _ _ (load_frame_ok _ _ _ Ha)).
Qed.

Lemma rolling_run (h : Obj.heap) (a : nat) (x : DataFrame) (w : Z) :
  nth_error h a = Some (Obj.ODataFrame x) ->
  (0 <= w)%Z ->
  Obj.rolling a w h =
  (Ok (length h), h ++ [Obj.ORolling a (Z.to_nat w) (Z.to_nat w)]).
Proof.
  intros Ha Hw. unfold Obj.rolling.
  rewrite (bind_ok _ _ _ _ _ (load_frame_ok _ _ _ Ha)).
  now rewrite rolling_ok.
Qed.

Lemma rolling_run_negative (h : Obj.heap) (a : nat) (x : DataFrame) (w : Z) :
  nth_error h a = Some (Obj.ODataFrame x) ->
  (w < 0)%Z ->
  Obj.rolling a w h =
  (Err (ValueError "window must be an integer 0 or greater"), h).
Proof.
  intros Ha Hw. unfold Obj.rolling.
  rewrite (bind_ok _ _ _ _ _ (load_frame_ok _ _ _ Ha)).
  now rewrite rolling_negative.
Qed.

Lemma std_run (h : Obj.heap) (r target w minp : nat) (x : DataFrame) :
  nth_error h r = Some (Obj.ORolling target w minp) ->
  nth_error h target = Some (Obj.ODataFrame x) ->
  Obj.std r h =
  (Ok (length h),
   h ++ [Obj.ODataFrame (rolling_std {| obj := x; window := w; min_periods := minp |})]).
Proof.
  intros Hr Hx. unfold Obj.std.
  rewrite (bind_ok _ _ _ _ _ (load_rolling_ok _ _ _ _ _ Hr)).
  now rewrite (bind_ok _ _ _ _ _ (load_frame_ok _ _ _ Hx)).
Qed.

Lemma mul_run (h : Obj.heap) (a : nat) (x : DataFrame) (k : float64) :
  nth_error h a = Some (Obj.ODataFrame x) ->
  Obj.mul a k h = (Ok (length h), h ++ [Obj.ODataFrame (df_mul_scalar x k)]).
Proof.
  intros Ha. unfold Obj.mul. now rewrite (bind_ok _ _ _ _ _ (load_frame_ok _ _ _ Ha)).
Qed.

Lemma nth_error_fresh_0 {A : Type} (h fresh : list A) :
  nth_error (h ++ fresh) (length h) = nth_error fresh 0.
Proof. rewrite <- (nth_error_fresh h fresh 0). f_equal. lia. Qed.

Ltac fresh_lookup :=
  repeat rewrite <- app_assoc; cbn [app];
  first
    [ apply nth_error_old; eassumption
    | repeat rewrite length_app; cbn [length];
      first [rewrite nth_error_fresh_0 | rewrite nth_error_fresh];
      reflexivity ].

(** The whole run on a store that holds the price table at [data]. *)
Lemma calculate_volatility_run (h : Obj.heap) (data : nat) (df : DataFrame) (w : Z) :
  nth_error h data = Some (Obj.ODataFrame df) ->
  (0 <= w)%Z ->
  let log_returns := np_log (df_div df (df_shift df 1)) in
  let r := {| obj := log_returns; window := Z.to_nat w; min_periods := Z.to_nat w |} in
  Obj.calculate_volatility data w h =
  (Ok (length h + 5, length h + 2)%nat,
   h ++ [Obj.ODataFrame (df_shift df 1);
         Obj.ODataFrame (df_div df (df_shift df 1));
         Obj.ODataFrame log_returns;
         Obj.ORolling (length h + 2) (Z.to_nat w) (Z.to_nat w);
         Obj.ODataFrame (rolling_std r);
         Obj.ODataFrame (df_mul_scalar (rolling_std r) (np_sqrt (Fin 252)))]).
Proof.
  intros Hd Hw log_returns r. unfold Obj.calculate_volatility.
  rewrite (bind_ok _ _ _ _ _ (shift_run h data df 1 Hd)).
  erewrite bind_ok; cycle 1.
  { apply div_run with (x := df) (y := df_shift df 1); fresh_lookup. }
  erewrite bind_ok; cycle 1.
  { apply log_run with (x := df_div df (df_shift df 1)); fresh_lookup. }
  erewrite bind_ok; cycle 1.
  { apply rolling_run with (x := log_returns); [fresh_lookup | exact Hw]. }
  erewrite bind_ok; cycle 1.
  { apply std_run with (x := log_returns) (target := (length h + 2)%nat)
      (w := Z.to_nat w) (minp := Z.to_nat w); fresh_lookup. }
  erewrite bind_ok; cycle 1.
  { apply mul_run with (x := rolling_std r); fresh_lookup. }
  unfold Obj.ret. repeat rewrite <- app_assoc. cbn [app].
  repeat rewrite length_app. cbn [length].
  repeat f_equal; lia.
Qed.
Lemma calculate_volatility_run_negative (h : Obj.heap) (data : nat) (df : DataFrame) (w : Z) :
  nth_error h data = Some (Obj.ODataFrame df) ->
  (w < 0)%Z ->
  fst (Obj.calculate_volatility data w h) =
  Err (ValueError "window must be an integer 0 or greater").
Proof.
  intros Hd Hw. unfold Obj.calculate_volatility.
  rewrite (bind_ok _ _ _ _ _ (shift_run h data df 1 Hd)).
  erewrite bind_ok; cycle 1.
  { apply div_run with (x := df) (y := df_shift df 1); fresh_lookup. }
  erewrite bind_ok; cycle 1.
  { apply log_run with (x := df_div df (df_shift df 1)); fresh_lookup. }
  erewrite bind_err; cycle 1.
  { apply rolling_run_negative with (x := np_log (df_div df (df_shift df 1)));
      [fresh_lookup | exact Hw]. }
  reflexivity.
Qed.

Lemma calculate_volatility_run_no_table (h : Obj.heap) (data : nat) (w : Z) :
  (forall df, nth_error h data <> Some (Obj.ODataFrame df)) ->
  Obj.calculate_volatility data w h = (Err Obj.attribute_error, h).
Proof.
  intros Hd. unfold Obj.calculate_volatility, Obj.shift.
  erewrite bind_err; [reflexivity |].
  erewrite bind_err; [reflexivity |].
  now apply load_frame_fail.
Qed.

(** The run on references computes what the function on values computes. *)
Lemma calculate_volatility_observed (h : Obj.heap) (data : nat) (df : DataFrame) (w : Z) :
  nth_error h data = Some (Obj.ODataFrame df) ->
  Obj.observe (Obj.calculate_volatility data w h) =
  observed (calculate_volatility df w).
Proof.
  intros Hd. destruct (Z.lt_ge_cases w 0) as [Hw | Hw].
  - pose proof (calculate_volatility_run_negative h data df w Hd Hw) as Hrun.
    destruct (Obj.calculate_volatility data w h) as [out h'].
    cbn [fst] in Hrun. subst out.
    rewrite calculate_volatility_negative by assumption. reflexivity.
  - rewrite (calculate_volatility_run h data df w Hd Hw).
    unfold calculate_volatility. rewrite rolling_ok by assumption.
    unfold Obj.observe, observed.
    rewrite (nth_error_fresh h _ 5), (nth_error_fresh h _ 2). reflexivity.
Qed.

(** C9: [calculate_volatility] has no side effect on what it is given.
    Whatever the store, the reference and the window, the store after the
    call is the store before it followed by new objects, so every object
    that existed (the price table with its cells, row labels and columns
    among them) is unchanged; the two tables it returns are among the new
    objects (the other new objects are the temporaries of the
    computation, which nothing refers to afterwards). *)
Theorem C9_calculate_volatility_leaves_input_unchanged
    (h : Obj.heap) (data : nat) (window : Z) :
  exists fresh,
    snd (Obj.calculate_volatility data window h) = h ++ fresh /\
    (forall a o, nth_error h a = Some o ->
       nth_error (snd (Obj.calculate_volatility data window h)) a = Some o) /\
    match fst (Obj.calculate_volatility data window h) with
    | Ok (vol, lr) =>
        (length h <= vol)%nat /\ (length h <= lr)%nat /\ vol <> lr /\
        (exists t, nth_error fresh (vol - length h) = Some (Obj.ODataFrame t)) /\
        (exists t, nth_error fresh (lr - length h) = Some (Obj.ODataFrame t))
    | Err _ => True
    end.
Proof.
  destruct (grows_calculate_volatility data window h) as [fresh Hfresh].
  exists fresh. split; [exact Hfresh |]. split.
  - intros a o Ha. rewrite Hfresh. now apply nth_error_old.
  - destruct (nth_error h data) as [[df | target w minp] |] eqn:Hd.
    + destruct (Z.lt_ge_cases window 0) as [Hw | Hw].
      * now rewrite (calculate_volatility_run_negative h data df window Hd Hw).
      * rewrite (calculate_volatility_run h data df window Hd Hw) in Hfresh |- *.
        cbn [fst snd] in Hfresh |- *. apply app_inv_head in Hfresh. subst fresh.
        repeat split; try lia.
        -- replace (length h + 5 - length h)%nat with 5%nat by lia. cbn. eauto.
        -- replace (length h + 2 - length h)%nat with 2%nat by lia. cbn. eauto.
    + rewrite calculate_volatility_run_no_table; [exact I | intros df; congruence].
    + rewrite calculate_volatility_run_no_table; [exact I | intros df; congruence].
Qed.

(** C10: [calculate_volatility] is deterministic.  Two calls that are
    given equal price tables (wherever each is stored, whatever else the
    stores hold) and equal windows return equal pairs of tables, or raise
    the same exception. *)
Theorem C10_calculate_volatility_deterministic
    (h1 h2 : Obj.heap) (d1 d2 : nat) (df : DataFrame) (window : Z) :
  nth_error h1 d1 = Some (Obj.ODataFrame df) ->
  nth_error h2 d2 = Some (Obj.ODataFrame df) ->
  Obj.observe (Obj.calculate_volatility d1 window h1) =
  Obj.observe (Obj.calculate_volatility d2 window h2) /\
  Obj.observe (Obj.calculate_volatility d1 window h1) =
  observed (calculate_volatility df window).
Proof.
  intros H1 H2. split.
  - now rewrite !(calculate_volatility_observed _ _ df).
  - now apply calculate_volatility_observed.
Qed.

Lemma C10_witness :
  nth_error store_one 0 = Some (Obj.ODataFrame sample_prices) /\
  nth_error store_two 1 = Some (Obj.ODataFrame sample_prices) /\
  Obj.observe (Obj.calculate_volatility 0 21 store_one) =
  Obj.observe (Obj.calculate_volatility 1 21 store_two).
Proof.
  split; [reflexivity |]. split; [reflexivity |].
  exact (proj1 (C10_calculate_volatility_deterministic
                  store_one store_two 0 1 sample_prices 21 eq_refl eq_refl)).
Defined.
(** ** The correlation aggregate computes Pearson's coefficient *)

(** Products of deviations from any two centres, through the power sums. *)
Lemma co_dev_shift (c d : R) (ps : list (R * R)) :
  Rsum (map (fun p => (fst p - c) * (snd p - d)) ps) =
  Rsum (map (fun p => fst p * snd p) ps)
  - c * Rsum (map snd ps) - d * Rsum (map fst ps) + INR (length ps) * c * d.
Proof.
  induction ps as [| [x y] ps IH].
  - simpl. lra.
  - cbn [map Rsum fold_right length fst snd].
    fold (Rsum (map (fun p => (fst p - c) * (snd p - d)) ps)).
    fold (Rsum (map (fun p => fst p * snd p) ps)).
    fold (Rsum (map fst ps)). fold (Rsum (map snd ps)).
    rewrite IH, S_INR. lra.
Qed.

Lemma co_dev_snoc (ps : list (R * R)) (x y : R) :
  co_dev (ps ++ [(x, y)]) =
  co_dev ps + (x - mean (map fst (ps ++ [(x, y)]))) * (y - mean (map snd ps)).
Proof.
  unfold co_dev. rewrite !map_app, Rsum_app. cbn [map Rsum fold_right fst snd].
  rewrite !co_dev_shift. rewrite !mean_snoc.
  rewrite (Rsum_mean (map fst ps)), (Rsum_mean (map snd ps)).
  rewrite !length_map, S_INR.
  field. rewrite <- S_INR. apply INR_S_neq_0.
Qed.

Lemma corr_add_snoc (ps : list (R * R)) (x y : R) :
  corr_add {| c_nobs := length ps;
              c_meanx := mean (map fst ps); c_meany := mean (map snd ps);
              c_ssqdm_x := sum_sq_dev (map fst ps);
              c_ssqdm_y := sum_sq_dev (map snd ps);
              c_covxy := co_dev ps |} (Fin x, Fin y) =
  let ps' := ps ++ [(x, y)] in
  {| c_nobs := length ps';
     c_meanx := mean (map fst ps'); c_meany := mean (map snd ps');
     c_ssqdm_x := sum_sq_dev (map fst ps');
     c_ssqdm_y := sum_sq_dev (map snd ps');
     c_covxy := co_dev ps' |}.
Proof.
  cbv zeta. unfold corr_add.
  cbn [c_nobs c_meanx c_meany c_ssqdm_x c_ssqdm_y c_covxy].
  rewrite co_dev_snoc. rewrite !map_app. cbn [map fst snd].
  rewrite !sum_sq_dev_snoc, !mean_snoc, !length_map, length_app, Nat.add_1_r.
  f_equal; unfold Rdiv; ring.
Qed.

Lemma corr_add_fold (ps : list (R * R)) :
  fold_left corr_add (map (fun p => (Fin (fst p), Fin (snd p))) ps) corr_init =
  {| c_nobs := length ps;
     c_meanx := mean (map fst ps); c_meany := mean (map snd ps);
     c_ssqdm_x := sum_sq_dev (map fst ps);
     c_ssqdm_y := sum_sq_dev (map snd ps);
     c_covxy := co_dev ps |}.
Proof.
  induction ps as [| [x y] ps IH] using rev_ind.
  - cbn. unfold corr_init, co_dev, sum_sq_dev. cbn. now rewrite mean_nil.
  - rewrite map_app, fold_left_app, IH. cbn [map fold_left fst snd].
    apply corr_add_snoc.
Qed.

(** Rows with a cell that is not finite do not touch the aggregate. *)
Lemma corr_add_skips (rows : list (float64 * float64)) (st : corr_state) :
  fold_left corr_add rows st =
  fold_left corr_add
    (map (fun p => (Fin (fst p), Fin (snd p))) (complete_pairs rows)) st.
Proof.
  revert st. induction rows as [| [a b] rows IH]; intros st; [reflexivity |].
  destruct a, b; cbn [complete_pairs map fold_left fst snd]; apply IH.
Qed.
(** *** The coefficient lies between -1 and 1 *)

Lemma Rsum_sq_nonneg (f : R * R -> R) (ps : list (R * R)) :
  0 <= Rsum (map (fun p => f p * f p) ps).
Proof.
  induction ps as [| p ps IH]; cbn [map Rsum fold_right]; [lra |].
  fold (Rsum (map (fun p => f p * f p) ps)).
  pose proof (Rle_0_sqr (f p)) as H. unfold Rsqr in H. lra.
Qed.

(** Cauchy-Schwarz for two families of numbers indexed by a list. *)
Lemma cauchy_schwarz (f g : R * R -> R) (ps : list (R * R)) :
  Rsum (map (fun p => f p * g p) ps) * Rsum (map (fun p => f p * g p) ps) <=
  Rsum (map (fun p => f p * f p) ps) * Rsum (map (fun p => g p * g p) ps).
Proof.
  induction ps as [| p ps IH]; cbn [map Rsum fold_right]; [lra |].
  fold (Rsum (map (fun p => f p * g p) ps)).
  fold (Rsum (map (fun p => f p * f p) ps)).
  fold (Rsum (map (fun p => g p * g p) ps)).
  pose proof (Rsum_sq_nonneg f ps) as HA.
  pose proof (Rsum_sq_nonneg g ps) as HB.
  set (A := Rsum (map (fun p => f p * f p) ps)) in *.
  set (B := Rsum (map (fun p => g p * g p) ps)) in *.
  set (C := Rsum (map (fun p => f p * g p) ps)) in *.
  set (a := f p). set (b := g p).
  assert (2 * a * b * C <= A * (b * b) + (a * a) * B) as Hmix.
  { assert (0 <= A * (b * b) + (a * a) * B) as Hpos by nra.
    assert ((2 * a * b * C) * (2 * a * b * C) <=
            (A * (b * b) + (a * a) * B) * (A * (b * b) + (a * a) * B)) as Hsq.
    { assert (0 <= a * a * (b * b)) as Hab by nra.
      assert (a * a * (b * b) * (C * C) <= a * a * (b * b) * (A * B)) as Hc
        by (apply Rmult_le_compat_l; assumption).
      pose proof (Rle_0_sqr (A * (b * b) - (a * a) * B)) as Hd. unfold Rsqr in Hd.
      nra. }
    destruct (Rle_lt_dec (2 * a * b * C) (A * (b * b) + a * a * B)) as [Hle | Hgt];
      [exact Hle |].
    exfalso. nra. }
  nra.
Qed.

Lemma clip_unit_inside (val : R) : -1 <= val <= 1 -> clip_unit val = val.
Proof.
  intros [Hlo Hhi]. unfold clip_unit.
  destruct (Rlt_dec 1 val); [lra |]. destruct (Rlt_dec val (-1)); [lra | reflexivity].
Qed.

Lemma co_dev_bound (ps : list (R * R)) :
  co_dev ps * co_dev ps <= sum_sq_dev (map fst ps) * sum_sq_dev (map snd ps).
Proof.
  unfold co_dev, sum_sq_dev. rewrite !map_map.
  apply (cauchy_schwarz (fun p => fst p - mean (map fst ps))
                        (fun p => snd p - mean (map snd ps))).
Qed.

Lemma pearson_in_unit (ps : list (R * R)) :
  let d := sqrt (sum_sq_dev (map fst ps) * sum_sq_dev (map snd ps)) in
  d <> 0 -> -1 <= co_dev ps / d <= 1.
Proof.
  intros d Hd. pose proof (co_dev_bound ps) as Hcs.
  pose proof (sum_sq_dev_nonneg (map fst ps)) as Hx.
  pose proof (sum_sq_dev_nonneg (map snd ps)) as Hy.
  assert (0 <= sum_sq_dev (map fst ps) * sum_sq_dev (map snd ps)) as Hxy
    by (apply Rmult_le_pos; assumption).
  assert (0 < d) as Hpos.
  { pose proof (sqrt_pos (sum_sq_dev (map fst ps) * sum_sq_dev (map snd ps))). fold d in H. lra. }
  assert (d * d = sum_sq_dev (map fst ps) * sum_sq_dev (map snd ps)) as Hdd
    by (apply sqrt_sqrt; exact Hxy).
  rewrite <- Hdd in Hcs.
  assert (- d <= co_dev ps <= d) as [Hlo Hhi] by (split; nra).
  split.
  - apply Rmult_le_reg_r with d; [exact Hpos |].
    unfold Rdiv. rewrite Rmult_assoc, Rinv_l by exact Hd. lra.
  - apply Rmult_le_reg_r with d; [exact Hpos |].
    unfold Rdiv. rewrite Rmult_assoc, Rinv_l by exact Hd. lra.
Qed.

(** The library's pair computation is Pearson's coefficient over the
    pairwise-complete rows. *)
Lemma nancorr_pair_pearson (x y : Series) :
  nancorr_pair 1 x y = pearson_cell x y.
Proof.
  unfold nancorr_pair, pearson_cell, pearson.
  rewrite corr_add_skips, corr_add_fold.
  cbn [c_nobs c_ssqdm_x c_ssqdm_y c_covxy].
  set (ps := complete_pairs (combine x y)).
  pose proof (sum_sq_dev_nonneg (map fst ps)) as Hx.
  pose proof (sum_sq_dev_nonneg (map snd ps)) as Hy.
  assert (0 <= sum_sq_dev (map fst ps) * sum_sq_dev (map snd ps)) as Hxy
    by (apply Rmult_le_pos; assumption).
  destruct (Req_dec_T (sum_sq_dev (map fst ps) * sum_sq_dev (map snd ps)) 0) as [E | N].
  - destruct (length ps <? 1)%nat; [reflexivity |].
    destruct (Req_dec_T _ 0) as [_ | N]; [reflexivity |].
    exfalso. apply N. rewrite E. apply sqrt_0.
  - destruct (Nat.ltb_spec (length ps) 1) as [Hn | Hn].
    + exfalso. apply N. destruct ps; [| cbn [length] in Hn; lia].
      unfold sum_sq_dev. cbn. lra.
    + destruct (Req_dec_T _ 0) as [E | Nd].
      * exfalso. apply N. now apply sqrt_eq_0.
      * f_equal. apply clip_unit_inside. now apply pearson_in_unit.
Qed.
(** *** Symmetry and the diagonal *)

Lemma complete_pairs_swap (x y : Series) :
  complete_pairs (combine y x) =
  map (fun p => (snd p, fst p)) (complete_pairs (combine x y)).
Proof.
  revert y. induction x as [| a x IH]; intros [| b y]; try reflexivity.
  cbn [combine]. destruct a, b; cbn [complete_pairs map fst snd];
    rewrite IH; reflexivity.
Qed.

Lemma map_fst_swap {A B : Type} (ps : list (A * B)) :
  map fst (map (fun p => (snd p, fst p)) ps) = map snd ps.
Proof. rewrite map_map. apply map_ext. reflexivity. Qed.

Lemma map_snd_swap {A B : Type} (ps : list (A * B)) :
  map snd (map (fun p => (snd p, fst p)) ps) = map fst ps.
Proof. rewrite map_map. apply map_ext. reflexivity. Qed.

Lemma co_dev_swap (ps : list (R * R)) :
  co_dev (map (fun p => (snd p, fst p)) ps) = co_dev ps.
Proof.
  unfold co_dev. rewrite map_fst_swap, map_snd_swap, map_map. cbn [fst snd].
  f_equal. apply map_ext. intros p. ring.
Qed.

Lemma pearson_swap (ps : list (R * R)) :
  pearson (map (fun p => (snd p, fst p)) ps) = pearson ps.
Proof.
  unfold pearson. rewrite co_dev_swap, map_fst_swap, map_snd_swap.
  rewrite (Rmult_comm (sum_sq_dev (map snd ps))). reflexivity.
Qed.

Lemma pearson_cell_comm (x y : Series) : pearson_cell x y = pearson_cell y x.
Proof.
  unfold pearson_cell. now rewrite (complete_pairs_swap x y), pearson_swap.
Qed.

(** Each entry of the matrix is Pearson's coefficient of its two columns. *)
Lemma corr_entry_pearson (cols : list Series) (i j : nat) :
  corr_entry cols i j = pearson_cell (nth i cols []) (nth j cols []).
Proof.
  unfold corr_entry. rewrite nancorr_pair_pearson.
  destruct (Nat.le_ge_cases i j) as [H | H].
  - rewrite Nat.max_r, Nat.min_l by exact H. apply pearson_cell_comm.
  - rewrite Nat.max_l, Nat.min_r by exact H. reflexivity.
Qed.

Lemma corr_entry_sym (cols : list Series) (i j : nat) :
  corr_entry cols i j = corr_entry cols j i.
Proof.
  unfold corr_entry. now rewrite Nat.max_comm, Nat.min_comm.
Qed.

Lemma complete_pairs_diag (c : Series) :
  complete_pairs (combine c c) = map (fun x => (x, x)) (finite_values c).
Proof.
  induction c as [| v c IH]; [reflexivity |].
  cbn [combine]. destruct v; cbn [complete_pairs finite_values map]; now rewrite IH.
Qed.

Lemma finite_values_In (c : Series) (x : R) : In (Fin x) c -> In x (finite_values c).
Proof.
  induction c as [| v c IH]; [intros [] |].
  intros [-> | H]; [now left |].
  destruct v; cbn [finite_values]; [right |..]; now apply IH.
Qed.

Lemma sq_dev_le_sum (m : R) (xs : list R) (x : R) :
  In x xs -> (x - m) * (x - m) <= Rsum (map (fun y => (y - m) * (y - m)) xs).
Proof.
  induction xs as [| z xs IH]; [intros [] |].
  cbn [map Rsum fold_right]. fold (Rsum (map (fun y => (y - m) * (y - m)) xs)).
  assert (0 <= Rsum (map (fun y => (y - m) * (y - m)) xs)) as Hrest.
  { clear. induction xs as [| y xs IH]; cbn [map Rsum fold_right]; [lra |].
    fold (Rsum (map (fun y => (y - m) * (y - m)) xs)).
    pose proof (Rle_0_sqr (y - m)) as H. unfold Rsqr in H. lra. }
  pose proof (Rle_0_sqr (z - m)) as Hz. unfold Rsqr in Hz.
  intros [-> | H]; [lra |]. apply IH in H. lra.
Qed.

(** Two different values give the column a spread. *)
Lemma nondegenerate_spread (c : Series) :
  nondegenerate c -> 0 < sum_sq_dev (finite_values c).
Proof.
  intros (x & y & Hx & Hy & Hxy).
  apply finite_values_In in Hx, Hy.
  pose proof (sq_dev_le_sum (mean (finite_values c)) _ _ Hx) as Hdx.
  pose proof (sq_dev_le_sum (mean (finite_values c)) _ _ Hy) as Hdy.
  fold (sum_sq_dev (finite_values c)) in Hdx, Hdy.
  pose proof (sum_sq_dev_nonneg (finite_values c)) as Hnn.
  destruct (Req_dec_T (sum_sq_dev (finite_values c)) 0) as [E | N]; [| lra].
  exfalso. apply Hxy. rewrite E in Hdx, Hdy.
  assert (x - mean (finite_values c) = 0) by nra.
  assert (y - mean (finite_values c) = 0) by nra.
  lra.
Qed.

Lemma pearson_cell_diag (c : Series) : nondegenerate c -> pearson_cell c c = Fin 1.
Proof.
  intros Hc. apply nondegenerate_spread in Hc.
  unfold pearson_cell, pearson. rewrite complete_pairs_diag.
  assert (co_dev (map (fun x => (x, x)) (finite_values c)) =
          sum_sq_dev (finite_values c)) as ->.
  { unfold co_dev, sum_sq_dev. rewrite !map_map. cbn [fst snd].
    now rewrite map_id. }
  rewrite !map_map. cbn [fst snd]. rewrite map_id.
  set (S := sum_sq_dev (finite_values c)) in *.
  destruct (Req_dec_T (S * S) 0) as [E | _]; [nra |].
  rewrite sqrt_square by lra. f_equal. field. lra.
Qed.

(** *** The matrix *)

Lemma map_nth_seq {A : Type} (l : list A) (d : A) :
  map (fun j => nth j l d) (seq 0 (length l)) = l.
Proof.
  apply nth_error_ext. intros k. rewrite nth_error_map, nth_error_seq.
  destruct (Nat.ltb_spec k (length l)) as [H | H]; cbn [option_map Nat.add].
  - symmetry. now apply nth_error_nth'.
  - symmetry. now apply nth_error_None.
Qed.

Lemma corr_labels (df : DataFrame) :
  index (corr df) = map fst (columns df) /\
  map fst (columns (corr df)) = map fst (columns df).
Proof.
  unfold corr. cbn [index columns]. split; [reflexivity |].
  rewrite map_map. cbn [fst]. rewrite !length_map.
  rewrite <- (length_map fst (columns df)). apply map_nth_seq.
Qed.

Lemma corr_cell (df : DataFrame) (i j : nat) :
  (i < length (columns df))%nat -> (j < length (columns df))%nat ->
  cell (corr df) i j = Some (corr_entry (map snd (columns df)) i j).
Proof.
  intros Hi Hj. unfold cell, corr. cbn [columns].
  rewrite length_map, nth_error_map, nth_error_seq.
  destruct (Nat.ltb_spec j (length (columns df))); [| lia].
  cbn [option_map Nat.add]. rewrite nth_error_map, nth_error_seq.
  destruct (Nat.ltb_spec i (length (columns df))); [| lia].
  reflexivity.
Qed.

(** When [plot_correlation] returns, it returns [returns.corr()]. *)
Lemma plot_correlation_returns (env : world) (returns M : DataFrame) (tr : list call) :
  run env [] (plot_correlation returns) = (tr, Ok M) -> M = corr returns.
Proof.
  unfold plot_correlation, invoke. cbn [run app].
  destruct (env [] _); cbn [run app]; try discriminate;
    destruct (env [_] _); cbn [run app]; try discriminate;
    destruct (env [_; _] _); cbn [run app]; try discriminate;
    destruct (env [_; _; _] _); cbn [run app]; try discriminate;
    now intros [= _ <-].
Qed.
(** C7: for every log-return table in which no column is degenerate, the
    matrix that [plot_correlation] returns is labelled by the tickers on
    both sides, is symmetric, has 1.0 on its diagonal, and each of its
    entries is Pearson's correlation of the two tickers' return series
    taken over all the rows where both returns are defined. *)
Theorem C7_correlation_matrix
    (env : world) (returns M : DataFrame) (tr : list call) :
  run env [] (plot_correlation returns) = (tr, Ok M) ->
  (forall name c, In (name, c) (columns returns) -> nondegenerate c) ->
  index M = map fst (columns returns) /\
  map fst (columns M) = map fst (columns returns) /\
  forall i j x y,
    nth_error (map snd (columns returns)) i = Some x ->
    nth_error (map snd (columns returns)) j = Some y ->
    cell M i j = cell M j i /\
    cell M i i = Some (Fin 1) /\
    cell M i j = Some (pearson_cell x y).
Proof.
  intros Hrun Hcols. apply plot_correlation_returns in Hrun. subst M.
  destruct (corr_labels returns) as [Hindex Hnames].
  split; [exact Hindex |]. split; [exact Hnames |].
  intros i j x y Hx Hy.
  pose proof (nth_error_lt _ _ _ Hx) as Hi. pose proof (nth_error_lt _ _ _ Hy) as Hj.
  rewrite length_map in Hi, Hj.
  rewrite !corr_cell by assumption.
  assert (nth i (map snd (columns returns)) [] = x) as Hnx
    by (now apply nth_error_nth).
  assert (nth j (map snd (columns returns)) [] = y) as Hny
    by (now apply nth_error_nth).
  split; [| split].
  - f_equal. apply corr_entry_sym.
  - rewrite corr_entry_pearson, Hnx. f_equal. apply pearson_cell_diag.
    apply nth_error_map_Some in Hx. destruct Hx as ([name c] & Hc & <-).
    apply (Hcols name). eapply nth_error_In. exact Hc.
  - now rewrite corr_entry_pearson, Hnx, Hny.
Qed.

Lemma nondegenerate_sample_returns :
  forall name c, In (name, c) (columns sample_returns) -> nondegenerate c.
Proof.
  intros name c [[= <- <-] | [[= <- <-] | []]].
  - exists (1 / 100), (3 / 100). cbn [In]. repeat split; auto. lra.
  - exists (2 / 100), (1 / 100). cbn [In]. repeat split; auto. lra.
Qed.

Lemma C7_witness :
  exists tr M,
    run calm_world [] (plot_correlation sample_returns) = (tr, Ok M) /\
    (forall name c, In (name, c) (columns sample_returns) -> nondegenerate c) /\
    cell M 0 1 = cell M 1 0 /\
    cell M 0 0 = Some (Fin 1) /\
    cell M 1 1 = Some (Fin 1).
Proof.
  do 2 eexists. split; [reflexivity |].
  split; [exact nondegenerate_sample_returns |].
  pose proof (C7_correlation_matrix calm_world sample_returns _ _ eq_refl
                nondegenerate_sample_returns) as (_ & _ & H).
  destruct (H 0%nat 1%nat _ _ eq_refl eq_refl) as (Hsym & Hd0 & _).
  destruct (H 1%nat 1%nat _ _ eq_refl eq_refl) as (_ & Hd1 & _).
  split; [exact Hsym |]. split; [exact Hd0 | exact Hd1].
Defined.

(** ** Fetching *)

(** C4 (as amended): [get_data] does not check its ticker set.  For every
    ticker set, the empty one included, it prints the progress message
    and, unless that print raises, calls the download service with exactly
    the tickers and dates it was given; it returns the Close table of the
    answer, and it fails only with what the print or the download raised
    or, when the answer holds no Close table, with the error of that
    lookup. *)
Theorem C4_get_data_always_downloads
    (env : world) (tickers : list string) (start stop : string) :
  let message := print [Lit "Fetching data for "; Repr tickers; Lit "..."] in
  let download := yf_download tickers start stop in
  run env [] (get_data tickers start stop) =
  match env [] message with
  | Raised e => ([message], Err e)
  | _ =>
      ([message; download],
       match env [message] download with
       | Raised e => Err e
       | Returned_fields fields =>
           match getitem fields "Close" with
           | Some data => Ok data
           | None => Err (Exn "KeyError" "Close")
           end
       | Returned_None =>
           Err (Exn "TypeError" "'NoneType' object is not subscriptable")
       end)
  end.
Proof.
  cbv zeta. unfold get_data, invoke. cbn [run app].
  destruct (env [] _); cbn [run app]; try reflexivity;
    destruct (env [_] _); cbn [run app]; try reflexivity;
    destruct (getitem _ _); reflexivity.
Qed.

(** C4, as stated, fails: asked for no ticker at all, [get_data] still
    calls the download service (with the empty ticker list) and, with a
    service that answers, returns normally.  In no world does [get_data]
    raise InvalidConfiguration of its own: such an outcome can only be an
    exception that the print or the download raised. *)
Lemma C4_counterexample :
  run empty_close_world [] (get_data [] "2025-01-01" "2026-01-13") =
  ([print [Lit "Fetching data for "; Repr []; Lit "..."];
    yf_download [] "2025-01-01" "2026-01-13"],
   Ok {| index := []; columns := [] |}) /\
  (forall env message,
     snd (run env [] (get_data [] "2025-01-01" "2026-01-13")) =
       Err (Exn "InvalidConfiguration" message) ->
     exists past c, env past c = Raised (Exn "InvalidConfiguration" message)).
Proof.
  split; [reflexivity |].
  intros env message. unfold get_data, invoke. cbn [run app].
  destruct (env [] _) eqn:E1; cbn [run app fst snd];
    try (destruct (env [_] _) eqn:E2; cbn [run app fst snd];
         try destruct (getitem _ _); try discriminate;
         intros [= ->]; do 2 eexists; exact E2).
  intros [= ->]. do 2 eexists. exact E1.
Qed.
(** * Further properties of the risk calculation *)

(** The columns of the two returned tables, for a window that is not
    negative. *)
Lemma calculate_volatility_column (data : DataFrame) (window : Z) :
  (0 <= window)%Z ->
  exists vol lr,
    calculate_volatility data window = Ok (vol, lr) /\
    forall s name p, nth_error (columns data) s = Some (name, p) ->
      nth_error (columns vol) s =
        Some (name, volatility_column (Z.to_nat window) (log_return_column p)) /\
      nth_error (columns lr) s = Some (name, log_return_column p).
Proof.
  intros Hw. do 2 eexists. split; [now apply calculate_volatility_columns |].
  cbn [columns]. intros s name p Hp. rewrite !nth_error_map, Hp. now split.
Qed.


(** X2: both returned tables have the shape of the price table: the same
    row labels, the same column names in the same order, and in every
    column as many rows as the price column has. *)
Theorem volatility_tables_keep_shape (data : DataFrame) (window : Z) :
  (0 <= window)%Z ->
  exists vol lr,
    calculate_volatility data window = Ok (vol, lr) /\
    index vol = index data /\ index lr = index data /\
    map fst (columns vol) = map fst (columns data) /\
    map fst (columns lr) = map fst (columns data) /\
    map (fun nc => length (snd nc)) (columns vol) =
      map (fun nc => length (snd nc)) (columns data) /\
    map (fun nc => length (snd nc)) (columns lr) =
      map (fun nc => length (snd nc)) (columns data).
Proof.
  intros Hw. do 2 eexists. split; [now apply calculate_volatility_columns |].
  cbn [index columns]. rewrite !map_map. cbn [fst snd].
  repeat split; try reflexivity; apply map_ext; intros [name p]; cbn [snd].
  - now rewrite volatility_column_length, log_return_column_length.
  - apply log_return_column_length.
Qed.

Lemma volatility_tables_keep_shape_witness :
  (0 <= 21)%Z /\
  exists vol lr,
    calculate_volatility gap_prices 21 = Ok (vol, lr) /\
    map fst (columns vol) = ["THYAO.IS"%string] /\
    map (fun nc => length (snd nc)) (columns vol) = [3%nat].
Proof.
  split; [lia |].
  destruct (volatility_tables_keep_shape gap_prices 21 ltac:(lia))
    as (vol & lr & Hrun & _ & _ & Hn & _ & Hl & _).
  exists vol, lr. split; [exact Hrun |]. split; [exact Hn | exact Hl].
Defined.

(** ** Where the volatility is defined *)

Lemma log_return_column_cons (a : float64) (q : Series) :
  exists rest, log_return_column (a :: q) = NaN :: rest.
Proof.
  unfold log_return_column, shift.
  cbn [length repeat app firstn combine map fst snd].
  rewrite fdiv_NaN_r. cbn [flog]. eauto.
Qed.

(** X4: a window at least as long as a column leaves the whole volatility
    column undefined; it is not an error. *)
Theorem volatility_undefined_for_long_window (data : DataFrame) (window : Z) :
  (0 <= window)%Z ->
  exists vol lr,
    calculate_volatility data window = Ok (vol, lr) /\
    forall s name p,
      nth_error (columns data) s = Some (name, p) ->
      (length p <= Z.to_nat window)%nat ->
      nth_error (columns vol) s = Some (name, repeat NaN (length p)).
Proof.
  intros Hw. destruct (calculate_volatility_column data window Hw)
    as (vol & lr & Hrun & Hcols).
  exists vol, lr. split; [exact Hrun |].
  intros s name p Hp Hlen. destruct (Hcols s name p Hp) as [-> _].
  do 2 f_equal. apply nth_error_ext. intros t.
  destruct (Nat.lt_ge_cases t (length p)) as [Ht | Ht].
  - rewrite nth_error_repeat by assumption.
    destruct p as [| a q]; [cbn [length] in Ht; lia |].
    destruct (log_return_column_cons a q) as [rest Hrest].
    pose proof (log_return_column_length (a :: q)) as Hl.
    rewrite Hrest in Hl |- *. cbn [length] in Hl, Ht, Hlen.
    apply volatility_cell_first_rows; lia.
  - transitivity (@None float64); [| symmetry]; apply nth_error_None.
    + now rewrite volatility_column_length, log_return_column_length.
    + now rewrite repeat_length.
Qed.

Lemma volatility_undefined_for_long_window_witness :
  (0 <= 21)%Z /\
  exists vol lr,
    calculate_volatility sample_prices 21 = Ok (vol, lr) /\
    nth_error (columns vol) 1 = Some ("GARAN.IS"%string, repeat NaN 4).
Proof.
  split; [lia |].
  destruct (volatility_undefined_for_long_window sample_prices 21 ltac:(lia))
    as (vol & lr & Hrun & Hcols).
  exists vol, lr. split; [exact Hrun |].
  apply (Hcols 1%nat "GARAN.IS"%string [Fin 50; Fin 55; Fin 44; Fin 66] eq_refl).
  simpl. lia.
Defined.

Lemma all_finite_false_at (c : Series) (i : nat) (v : float64) :
  nth_error c i = Some v -> isfinite v = false -> all_finite c = false.
Proof.
  revert i. induction c as [| a c IH]; intros [| i] H Hv; try discriminate.
  - injection H as ->. cbn [all_finite forallb]. now rewrite Hv.
  - cbn [all_finite forallb]. fold (all_finite c).
    rewrite (IH i H Hv). apply andb_false_r.
Qed.

(** A cell that is not finite blanks every window it falls into. *)
Lemma volatility_cell_blanked (w : nat) (r : Series) (t j : nat) (v : float64) :
  nth_error r j = Some v -> isfinite v = false ->
  (S t - w <= j)%nat -> (j <= t)%nat -> (t < length r)%nat ->
  nth_error (volatility_column w r) t = Some NaN.
Proof.
  intros Hj Hv Hlo Hhi Ht. rewrite volatility_column_cell by exact Ht.
  unfold rolling_volatility_cell, trailing.
  destruct (Nat.leb_spec w (S t)) as [Hw | Hw]; [| reflexivity].
  rewrite (all_finite_false_at _ (j - (S t - w)) v); [reflexivity | | exact Hv].
  rewrite nth_error_firstn.
  destruct (Nat.ltb_spec (j - (S t - w)) w); [| lia].
  rewrite nth_error_skipn. rewrite <- Hj. f_equal. lia.
Qed.

(** X5: one missing price blanks a run of volatility cells: with the
    price of row [u] missing, the volatility of the same column is
    undefined on every row from [u] to [u + window]. *)
Theorem missing_price_blanks_volatility (data : DataFrame) (window : Z) :
  (0 <= window)%Z ->
  exists vol lr,
    calculate_volatility data window = Ok (vol, lr) /\
    forall s name p u t,
      nth_error (columns data) s = Some (name, p) ->
      nth_error p u = Some NaN ->
      (u <= t)%nat -> (t <= u + Z.to_nat window)%nat -> (t < length p)%nat ->
      cell vol t s = Some NaN.
Proof.
  intros Hw. destruct (calculate_volatility_column data window Hw)
    as (vol & lr & Hrun & Hcols).
  exists vol, lr. split; [exact Hrun |].
  intros s name p u t Hp Hu Hlo Hhi Ht. destruct (Hcols s name p Hp) as [Hv _].
  unfold cell. rewrite Hv.
  set (w := Z.to_nat window) in *.
  destruct (Nat.lt_ge_cases w 2) as [Hsmall | Hbig].
  - rewrite volatility_column_small_window by exact Hsmall.
    apply nth_error_repeat. now rewrite log_return_column_length.
  - assert (t < length (log_return_column p))%nat as Ht'
      by now rewrite log_return_column_length.
    destruct (Nat.eq_dec t (u + w)) as [-> | Hne].
    + apply (volatility_cell_blanked w _ (u + w) (S u) NaN);
        [apply log_return_missing_above; [exact Hu | lia] | reflexivity | lia | lia | exact Ht'].
    + apply (volatility_cell_blanked w _ t u NaN);
        [now apply log_return_missing_here | reflexivity | lia | lia | exact Ht'].
Qed.

Lemma missing_price_blanks_volatility_witness :
  (0 <= 2)%Z /\
  exists vol lr,
    calculate_volatility gap_prices 2 = Ok (vol, lr) /\
    nth_error [Fin 100; Fin 110; NaN] 2 = Some NaN /\
    cell vol 2 0 = Some NaN.
Proof.
  split; [lia |].
  destruct (missing_price_blanks_volatility gap_prices 2 ltac:(lia))
    as (vol & lr & Hrun & Hgap).
  exists vol, lr. split; [exact Hrun |]. split; [reflexivity |].
  apply (Hgap 0%nat "THYAO.IS"%string [Fin 100; Fin 110; NaN] 2%nat 2%nat);
    [reflexivity | reflexivity | lia | simpl; lia | simpl; lia].
Defined.

(** X6: a volatility cell is a number exactly when the window is at least
    2 and the [window] log returns that end at its row all exist and are
    finite. *)
Theorem volatility_defined_iff (data : DataFrame) (window : Z) :
  (0 <= window)%Z ->
  exists vol lr,
    calculate_volatility data window = Ok (vol, lr) /\
    forall s name p t,
      nth_error (columns data) s = Some (name, p) ->
      (t < length p)%nat ->
      exists r,
        nth_error (columns lr) s = Some (name, r) /\
        ((exists x, cell vol t s = Some (Fin x)) <->
         ((2 <= Z.to_nat window)%nat /\
          exists win, trailing (Z.to_nat window) r t = Some win /\
                      all_finite win = true)).
Proof.
  intros Hw. destruct (calculate_volatility_column data window Hw)
    as (vol & lr & Hrun & Hcols).
  exists vol, lr. split; [exact Hrun |].
  intros s name p t Hp Ht. destruct (Hcols s name p Hp) as [Hv Hr].
  exists (log_return_column p). split; [exact Hr |].
  unfold cell. rewrite Hv.
  rewrite volatility_column_cell by now rewrite log_return_column_length.
  unfold rolling_volatility_cell.
  destruct (trailing (Z.to_nat window) (log_return_column p) t) as [win |].
  - destruct (all_finite win) eqn:Hfin;
      destruct (Nat.leb_spec 2 (Z.to_nat window)) as [H2 | H2]; cbn [andb].
    + split; [intros _; split; [exact H2 | eauto] | eauto].
    + split; [intros [x [=]] | intros [H _]; lia].
    + split; [intros [x [=]] | intros (_ & win' & [= <-] & H); congruence].
    + split; [intros [x [=]] | intros [H _]; lia].
  - split; [intros [x [=]] | intros (_ & win' & [=] & _)].
Qed.

Lemma volatility_defined_iff_witness :
  (0 <= 2)%Z /\
  exists vol lr, calculate_volatility sample_prices 2 = Ok (vol, lr) /\
                 exists x, cell vol 3 1 = Some (Fin x).
Proof.
  split; [lia |].
  destruct (volatility_defined_iff sample_prices 2 ltac:(lia))
    as (vol & lr & Hrun & Hiff).
  exists vol, lr. split; [exact Hrun |].
  destruct (Hiff 1%nat _ _ 3%nat eq_refl ltac:(simpl; lia)) as (r & Hr & Hdef).
  apply Hdef. split; [simpl; lia |].
  destruct (calculate_volatility_column sample_prices 2 ltac:(lia))
    as (vol' & lr' & Hrun' & Hcols).
  rewrite Hrun in Hrun'. injection Hrun' as <- <-.
  destruct (Hcols 1%nat _ _ eq_refl) as [_ Hr'].
  rewrite Hr in Hr'. injection Hr' as ->.
  change [Fin 50; Fin 55; Fin 44; Fin 66] with (map Fin [50; 55; 44; 66]).
  rewrite (log_return_column_present 50 [55; 44; 66])
    by (repeat constructor; lra).
  eexists. split; reflexivity.
Defined.

(** X7: whatever the price table holds, no volatility cell is negative or
    infinite: each is [NaN] or a number that is not negative. *)
Theorem volatility_never_negative (data : DataFrame) (window : Z) :
  (0 <= window)%Z ->
  exists vol lr,
    calculate_volatility data window = Ok (vol, lr) /\
    forall t s c, cell vol t s = Some c ->
      c = NaN \/ exists x, c = Fin x /\ 0 <= x.
Proof.
  intros Hw. do 2 eexists. split; [now apply calculate_volatility_columns |].
  intros t s c. unfold cell. cbn [columns]. rewrite nth_error_map.
  destruct (nth_error (columns data) s) as [[name p] |]; cbn [option_map fst snd];
    [| discriminate].
  intros Hc. destruct (volatility_cell_kind _ _ _ _ Hc) as [-> | [x ->]];
    [now left | right].
  exists x. split; [reflexivity |].
  apply volatility_cell_defined in Hc. destruct Hc as (xs & _ & _ & _ & ->).
  apply sample_std_nonneg.
Qed.

Lemma volatility_never_negative_witness :
  (0 <= 2)%Z /\
  exists vol lr, calculate_volatility sample_prices 2 = Ok (vol, lr) /\
                 forall t s c, cell vol t s = Some c ->
                   c = NaN \/ exists x, c = Fin x /\ 0 <= x.
Proof.
  split; [lia |]. apply volatility_never_negative. lia.
Defined.
(** ** Windows of identical returns *)

Lemma Rsum_repeat (c : R) (n : nat) : Rsum (repeat c n) = INR n * c.
Proof.
  induction n as [| n IH]; [simpl; lra |].
  cbn [repeat Rsum fold_right]. fold (Rsum (repeat c n)). rewrite IH, S_INR. lra.
Qed.

Lemma sum_sq_dev_repeat (c : R) (n : nat) : sum_sq_dev (repeat c n) = 0.
Proof.
  unfold sum_sq_dev. destruct n as [| n]; [reflexivity |].
  assert (mean (repeat c (S n)) = c) as ->.
  { unfold mean. rewrite Rsum_repeat, repeat_length. field. apply INR_S_neq_0. }
  generalize (S n). intros m. induction m as [| m IH]; [reflexivity |].
  cbn [repeat map Rsum fold_right].
  fold (Rsum (map (fun x => (x - c) * (x - c)) (repeat c m))). rewrite IH. lra.
Qed.

Lemma sample_std_repeat (c : R) (n : nat) : sample_std (repeat c n) = 0.
Proof.
  unfold sample_std. rewrite sum_sq_dev_repeat.
  unfold Rdiv. rewrite Rmult_0_l. apply sqrt_0.
Qed.

(** X8: where the [window] log returns that end at a row are all the same
    number (prices that stand still, or that grow at a constant rate), the
    volatility of that row is exactly 0. *)
Theorem identical_returns_give_zero_volatility (data : DataFrame) (window : Z) :
  (2 <= window)%Z ->
  exists vol lr,
    calculate_volatility data window = Ok (vol, lr) /\
    forall s name p t rho,
      nth_error (columns data) s = Some (name, p) ->
      (t < length p)%nat ->
      exists r,
        nth_error (columns lr) s = Some (name, r) /\
        (trailing (Z.to_nat window) r t =
           Some (repeat (Fin rho) (Z.to_nat window)) ->
         cell vol t s = Some (Fin 0)).
Proof.
  intros Hw. destruct (calculate_volatility_column data window ltac:(lia))
    as (vol & lr & Hrun & Hcols).
  exists vol, lr. split; [exact Hrun |].
  intros s name p t rho Hp Ht. destruct (Hcols s name p Hp) as [Hv Hr].
  exists (log_return_column p). split; [exact Hr |]. intros Hwin.
  unfold cell. rewrite Hv.
  rewrite volatility_column_cell by now rewrite log_return_column_length.
  unfold rolling_volatility_cell. rewrite Hwin.
  rewrite <- (map_repeat rho (Z.to_nat window) Fin).
  rewrite all_finite_map_Fin_true, finite_values_map_Fin, sample_std_repeat.
  destruct (Nat.leb_spec 2 (Z.to_nat window)); [| lia].
  cbn [andb]. do 2 f_equal. lra.
Qed.

Lemma constant_trailing_window :
  trailing 21 (log_return_column (repeat (Fin 100) 30)) 25 =
  Some (repeat (Fin 0) 21).
Proof. rewrite constant_log_returns. reflexivity. Qed.

Lemma identical_returns_give_zero_volatility_witness :
  (2 <= 21)%Z /\
  exists vol lr,
    calculate_volatility constant_prices 21 = Ok (vol, lr) /\
    cell vol 25 0 = Some (Fin 0).
Proof.
  split; [lia |].
  destruct (identical_returns_give_zero_volatility constant_prices 21 ltac:(lia))
    as (vol & lr & Hrun & Hzero).
  exists vol, lr. split; [exact Hrun |].
  assert (nth_error (columns constant_prices) 0 =
          Some ("THYAO.IS"%string, repeat (Fin 100) 30)) as Hp by reflexivity.
  assert (25 < length (repeat (Fin 100) 30))%nat as Ht
    by (rewrite repeat_length; lia).
  destruct (Hzero 0%nat _ _ 25%nat 0 Hp Ht) as (r & Hr & Hcell).
  apply Hcell.
  rewrite (calculate_volatility_columns constant_prices 21) in Hrun by lia.
  injection Hrun as _ <-. cbn [columns constant_prices map fst snd] in Hr.
  change (Some ("THYAO.IS"%string, log_return_column (repeat (Fin 100) 30)) =
          Some ("THYAO.IS"%string, r)) in Hr.
  injection Hr as <-. exact constant_trailing_window.
Defined.
(** * Further properties of the correlation matrix *)

Lemma corr_cell_entry (df : DataFrame) (i j : nat) (c : float64) :
  cell (corr df) i j = Some c ->
  c = pearson_cell (nth i (map snd (columns df)) []) (nth j (map snd (columns df)) []).
Proof.
  unfold cell, corr. cbn [columns].
  rewrite length_map, nth_error_map, nth_error_seq.
  destruct (Nat.ltb_spec j (length (columns df))); cbn [option_map Nat.add];
    [| discriminate].
  rewrite nth_error_map, nth_error_seq.
  destruct (Nat.ltb_spec i (length (columns df))); cbn [option_map Nat.add];
    [| discriminate].
  intros [= <-]. apply corr_entry_pearson.
Qed.

Lemma pearson_cell_bounded (x y : Series) :
  pearson_cell x y = NaN \/
  exists rho, pearson_cell x y = Fin rho /\ -1 <= rho <= 1.
Proof.
  unfold pearson_cell, pearson.
  set (ps := complete_pairs (combine x y)).
  destruct (Req_dec_T _ 0) as [E | N]; [now left | right].
  eexists. split; [reflexivity |]. apply pearson_in_unit.
  intros Hd. apply N. apply sqrt_eq_0; [| exact Hd].
  apply Rmult_le_pos; apply sum_sq_dev_nonneg.
Qed.

(** X9: every entry of the matrix that [plot_correlation] returns is
    either [NaN] or a number between -1 and 1. *)
Theorem correlation_entries_in_unit_interval
    (env : world) (returns M : DataFrame) (tr : list call) :
  run env [] (plot_correlation returns) = (tr, Ok M) ->
  forall i j c, cell M i j = Some c ->
    c = NaN \/ exists rho, c = Fin rho /\ -1 <= rho <= 1.
Proof.
  intros Hrun i j c Hc. apply plot_correlation_returns in Hrun. subst M.
  apply corr_cell_entry in Hc. subst c. apply pearson_cell_bounded.
Qed.

Lemma correlation_entries_in_unit_interval_witness :
  exists tr M,
    run calm_world [] (plot_correlation sample_returns) = (tr, Ok M) /\
    forall i j c, cell M i j = Some c ->
      c = NaN \/ exists rho, c = Fin rho /\ -1 <= rho <= 1.
Proof.
  do 2 eexists. split; [reflexivity |].
  exact (correlation_entries_in_unit_interval calm_world sample_returns _ _ eq_refl).
Defined.

(** ** Columns without spread *)

Lemma all_equal_repeat (xs : list R) :
  (forall a b, In a xs -> In b xs -> a = b) ->
  exists c, xs = repeat c (length xs).
Proof.
  intros H. destruct xs as [| h t]; [exists 0; reflexivity |].
  exists h. apply Forall_eq_repeat.
  apply Forall_forall. intros a Ha. apply H; [now left | exact Ha].
Qed.

Lemma sum_sq_dev_all_equal (xs : list R) :
  (forall a b, In a xs -> In b xs -> a = b) -> sum_sq_dev xs = 0.
Proof.
  intros H. destruct (all_equal_repeat xs H) as [c ->]. apply sum_sq_dev_repeat.
Qed.

Lemma complete_pairs_fst_In (x y : Series) (a : R) :
  In a (map fst (complete_pairs (combine x y))) -> In (Fin a) x.
Proof.
  revert y. induction x as [| u x IH]; intros [| v y]; try (intros []).
  cbn [combine]. destruct u, v; cbn [complete_pairs map fst In];
    try (intros H; right; exact (IH y H)).
  intros [-> | H]; [now left | right; exact (IH y H)].
Qed.

Lemma pearson_cell_constant_l (x y : Series) :
  (forall a b, In (Fin a) x -> In (Fin b) x -> a = b) ->
  pearson_cell x y = NaN.
Proof.
  intros H. unfold pearson_cell, pearson.
  rewrite (sum_sq_dev_all_equal (map fst (complete_pairs (combine x y)))).
  - rewrite Rmult_0_l. destruct (Req_dec_T 0 0) as [_ | N]; [reflexivity | now destruct N].
  - intros a b Ha Hb. apply H; eapply complete_pairs_fst_In; eassumption.
Qed.

(** X10: a ticker whose defined returns are all the same number (or that
    has none) gets no correlation at all: every entry of its row and of
    its column is [NaN], the diagonal entry included. *)
Theorem constant_column_has_no_correlation
    (env : world) (returns M : DataFrame) (tr : list call) :
  run env [] (plot_correlation returns) = (tr, Ok M) ->
  forall i j x y,
    nth_error (map snd (columns returns)) i = Some x ->
    nth_error (map snd (columns returns)) j = Some y ->
    (forall a b, In (Fin a) x -> In (Fin b) x -> a = b) ->
    cell M i j = Some NaN /\ cell M j i = Some NaN.
Proof.
  intros Hrun i j x y Hx Hy Hconst. apply plot_correlation_returns in Hrun. subst M.
  pose proof (nth_error_lt _ _ _ Hx) as Hi. pose proof (nth_error_lt _ _ _ Hy) as Hj.
  rewrite length_map in Hi, Hj.
  rewrite !corr_cell, !corr_entry_pearson by assumption.
  assert (nth i (map snd (columns returns)) [] = x) as ->
    by (apply nth_error_nth; exact Hx).
  assert (nth j (map snd (columns returns)) [] = y) as ->
    by (apply nth_error_nth; exact Hy).
  rewrite (pearson_cell_comm y x), pearson_cell_constant_l by exact Hconst.
  now split.
Qed.

Lemma constant_column_has_no_correlation_witness :
  exists tr M,
    run calm_world [] (plot_correlation flat_returns) = (tr, Ok M) /\
    nth_error (map snd (columns flat_returns)) 1 = Some [NaN; Fin 0; Fin 0; Fin 0] /\
    (forall a b, In (Fin a) [NaN; Fin 0; Fin 0; Fin 0] ->
                 In (Fin b) [NaN; Fin 0; Fin 0; Fin 0] -> a = b) /\
    cell M 1 0 = Some NaN /\ cell M 1 1 = Some NaN.
Proof.
  assert (forall a b, In (Fin a) [NaN; Fin 0; Fin 0; Fin 0] ->
                      In (Fin b) [NaN; Fin 0; Fin 0; Fin 0] -> a = b) as Hflat.
  { intros a b Ha Hb. cbn [In] in Ha, Hb.
    assert (a = 0) as -> by (repeat (destruct Ha as [Ha | Ha]; try congruence); contradiction).
    repeat (destruct Hb as [Hb | Hb]; try congruence); contradiction. }
  do 2 eexists. split; [reflexivity |]. split; [reflexivity |].
  split; [exact Hflat |].
  split.
  - exact (proj1 (constant_column_has_no_correlation calm_world flat_returns _ _ eq_refl
                    1%nat 0%nat _ _ eq_refl eq_refl Hflat)).
  - exact (proj1 (constant_column_has_no_correlation calm_world flat_returns _ _ eq_refl
                    1%nat 1%nat _ _ eq_refl eq_refl Hflat)).
Defined.
(** ** A zero price *)

Lemma log_return_of_zero (a : R) : 0 < a -> flog (fdiv (Fin 0) (Fin a)) = NInf.
Proof.
  intros Ha. rewrite fdiv_present by lra. unfold flog.
  replace (0 / a) with 0 by (field; lra).
  destruct (Rlt_dec 0 0) as [F | _]; [lra |].
  destruct (Req_dec_T 0 0) as [_ | N]; [reflexivity | now destruct N].
Qed.

Lemma log_return_after_zero (b : R) : 0 < b -> flog (fdiv (Fin b) (Fin 0)) = PInf.
Proof.
  intros Hb. unfold fdiv, sign_of.
  destruct (Req_dec_T 0 0) as [_ | N]; [| now destruct N].
  destruct (Rlt_dec 0 b) as [_ | N]; [reflexivity | contradiction].
Qed.

(** X18: a zero price between two positive prices does not raise: the log
    return of its row is minus infinity, that of the next row is plus
    infinity, and the volatility of the column is undefined on every row
    from the zero price to [window] rows after it. *)
Theorem zero_price_gives_infinite_returns (data : DataFrame) (window : Z) :
  (0 <= window)%Z ->
  exists vol lr,
    calculate_volatility data window = Ok (vol, lr) /\
    forall s name p u a b,
      nth_error (columns data) s = Some (name, p) ->
      nth_error p u = Some (Fin a) -> 0 < a ->
      nth_error p (S u) = Some (Fin 0) ->
      nth_error p (S (S u)) = Some (Fin b) -> 0 < b ->
      cell lr (S u) s = Some NInf /\
      cell lr (S (S u)) s = Some PInf /\
      forall t, (S u <= t)%nat -> (t <= S u + Z.to_nat window)%nat ->
                (t < length p)%nat -> cell vol t s = Some NaN.
Proof.
  intros Hw. destruct (calculate_volatility_column data window Hw)
    as (vol & lr & Hrun & Hcols).
  exists vol, lr. split; [exact Hrun |].
  intros s name p u a b Hp Hu Ha Hz Hn Hb. destruct (Hcols s name p Hp) as [Hv Hr].
  assert (nth_error (log_return_column p) (S u) = Some NInf) as Hdown.
  { rewrite (log_return_column_next p u _ _ Hu Hz). f_equal. now apply log_return_of_zero. }
  assert (nth_error (log_return_column p) (S (S u)) = Some PInf) as Hup.
  { rewrite (log_return_column_next p (S u) _ _ Hz Hn). f_equal.
    now apply log_return_after_zero. }
  unfold cell. rewrite Hv, Hr. split; [exact Hdown |]. split; [exact Hup |].
  intros t Hlo Hhi Ht.
  set (w := Z.to_nat window) in *.
  destruct (Nat.lt_ge_cases w 2) as [Hsmall | Hbig].
  - rewrite volatility_column_small_window by exact Hsmall.
    apply nth_error_repeat. now rewrite log_return_column_length.
  - assert (t < length (log_return_column p))%nat as Ht'
      by now rewrite log_return_column_length.
    destruct (Nat.eq_dec t (S u + w)) as [-> | Hne].
    + apply (volatility_cell_blanked w _ (S u + w) (S (S u)) PInf);
        [exact Hup | reflexivity | lia | lia | exact Ht'].
    + apply (volatility_cell_blanked w _ t (S u) NInf);
        [exact Hdown | reflexivity | lia | lia | exact Ht'].
Qed.

Lemma zero_price_gives_infinite_returns_witness :
  (0 <= 2)%Z /\ 0 < 100 /\ 0 < 105 /\
  exists vol lr,
    calculate_volatility zero_quote_prices 2 = Ok (vol, lr) /\
    cell lr 1 0 = Some NInf /\ cell lr 2 0 = Some PInf /\ cell vol 3 0 = Some NaN.
Proof.
  split; [lia |]. split; [lra |]. split; [lra |].
  destruct (zero_price_gives_infinite_returns zero_quote_prices 2 ltac:(lia))
    as (vol & lr & Hrun & Hzero).
  exists vol, lr. split; [exact Hrun |].
  destruct (Hzero 0%nat "THYAO.IS"%string [Fin 100; Fin 0; Fin 105; Fin 110] 0%nat 100 105
              eq_refl eq_refl ltac:(lra) eq_refl eq_refl ltac:(lra))
    as (Hdown & Hup & Hvol).
  split; [exact Hdown |]. split; [exact Hup |].
  apply Hvol; simpl; lia.
Defined.

(** ** No look-ahead *)

Lemma log_return_cell_local (p p' : Series) (i : nat) :
  nth_error p i = nth_error p' i ->
  nth_error p (i - 1) = nth_error p' (i - 1) ->
  nth_error (log_return_column p) i = nth_error (log_return_column p') i.
Proof.
  intros Hi Hprev. destruct (nth_error p i) as [a |] eqn:Ha.
  - symmetry in Hi. destruct i as [| i].
    + destruct p as [| a0 q]; [discriminate |].
      destruct p' as [| a0' q']; [discriminate |].
      now rewrite !log_return_column_first.
    + replace (S i - 1)%nat with i in Hprev by lia.
      destruct (nth_error p i) as [b |] eqn:Hb.
      * symmetry in Hprev.
        now rewrite (log_return_column_next p i a b Hb Ha),
                    (log_return_column_next p' i a b Hprev Hi).
      * apply nth_error_None in Hb. apply nth_error_lt in Ha. lia.
  - symmetry in Hi. apply nth_error_None in Ha, Hi.
    rewrite <- log_return_column_length in Ha, Hi.
    apply nth_error_None in Ha, Hi. now rewrite Ha, Hi.
Qed.

Lemma trailing_local (w : nat) (r r' : Series) (t : nat) :
  (forall i, (S t - w <= i)%nat -> (i <= t)%nat -> nth_error r i = nth_error r' i) ->
  trailing w r t = trailing w r' t.
Proof.
  intros H. unfold trailing.
  destruct (Nat.leb_spec w (S t)) as [Hw | Hw]; [| reflexivity].
  f_equal. apply nth_error_ext. intros j.
  rewrite !nth_error_firstn.
  destruct (Nat.ltb_spec j w) as [Hj | Hj]; [| reflexivity].
  rewrite !nth_error_skipn. apply H; lia.
Qed.

(** X20: the volatility of a row does not look ahead.  Two price tables
    that agree on a column from its first row to row [t] get the same
    volatility cell at row [t], whatever the later prices are: a later
    price never changes an earlier volatility. *)
Theorem volatility_has_no_look_ahead (data data' : DataFrame) (window : Z) :
  (0 <= window)%Z ->
  exists vol lr vol' lr',
    calculate_volatility data window = Ok (vol, lr) /\
    calculate_volatility data' window = Ok (vol', lr') /\
    forall s name name' p p' t,
      nth_error (columns data) s = Some (name, p) ->
      nth_error (columns data') s = Some (name', p') ->
      (t < length p)%nat -> (t < length p')%nat ->
      (forall i, (i <= t)%nat -> nth_error p i = nth_error p' i) ->
      cell vol t s = cell vol' t s.
Proof.
  intros Hw.
  destruct (calculate_volatility_column data window Hw) as (vol & lr & Hrun & Hcols).
  destruct (calculate_volatility_column data' window Hw) as (vol' & lr' & Hrun' & Hcols').
  exists vol, lr, vol', lr'. split; [exact Hrun |]. split; [exact Hrun' |].
  intros s name name' p p' t Hp Hp' Ht Ht' Hsame.
  destruct (Hcols s name p Hp) as [Hv _]. destruct (Hcols' s name' p' Hp') as [Hv' _].
  unfold cell. rewrite Hv, Hv'.
  rewrite !volatility_column_cell by now rewrite log_return_column_length.
  f_equal. unfold rolling_volatility_cell.
  rewrite (trailing_local _ (log_return_column p) (log_return_column p')); [reflexivity |].
  intros i Hlo Hhi. apply log_return_cell_local; apply Hsame; lia.
Qed.

Lemma sample_prices_third_day (vol lr : DataFrame) :
  calculate_volatility sample_prices 2 = Ok (vol, lr) ->
  cell vol 2 0 = Some (Fin (sample_std [ln (110 / 100); ln (121 / 110)] * sqrt 252)).
Proof.
  intros Hrun.
  pose proof (calculate_volatility_columns sample_prices 2 ltac:(lia)) as Hc.
  rewrite Hrun in Hc. injection Hc as -> ->.
  rewrite cell_first_column.
  change [Fin 100; Fin 110; Fin 121; Fin 121] with (map Fin [100; 110; 121; 121]).
  rewrite (log_return_column_present 100 [110; 121; 121]) by (repeat constructor; lra).
  apply (volatility_cell_later 2 (log_ratios [100; 110; 121; 121]) 2); simpl; lia.
Qed.

Lemma volatility_has_no_look_ahead_witness :
  (0 <= 2)%Z /\
  exists vol lr vol' lr',
    calculate_volatility sample_prices 2 = Ok (vol, lr) /\
    calculate_volatility late_change_prices 2 = Ok (vol', lr') /\
    cell sample_prices 3 0 = Some (Fin 121) /\
    cell late_change_prices 3 0 = Some (Fin 90) /\
    cell vol' 2 0 = cell vol 2 0 /\
    cell vol 2 0 = Some (Fin (sample_std [ln (110 / 100); ln (121 / 110)] * sqrt 252)).
Proof.
  split; [lia |].
  destruct (volatility_has_no_look_ahead sample_prices late_change_prices 2 ltac:(lia))
    as (vol & lr & vol' & lr' & Hrun & Hrun' & Hsame).
  exists vol, lr, vol', lr'. split; [exact Hrun |]. split; [exact Hrun' |].
  split; [reflexivity |]. split; [reflexivity |].
  split; [| exact (sample_prices_third_day vol lr Hrun)].
  symmetry.
  apply (Hsame 0%nat "THYAO.IS"%string "THYAO.IS"%string
           [Fin 100; Fin 110; Fin 121; Fin 121] [Fin 100; Fin 110; Fin 121; Fin 90] 2%nat);
    [reflexivity | reflexivity | simpl; lia | simpl; lia |].
  intros [| [| [| i]]] Hi; [reflexivity | reflexivity | reflexivity | lia].
Defined.
